(** * Path-keyed tries: the token-sequence trie and the delimited-string trie

    A shallow embedding of the two trie flavours of package [trie]
    ([sliceTrie] and [stringTrie]) together with the properties of their
    [Put], [Get] and [Delete] methods.

    Modelling conventions.
    - A node owns its children exclusively (children are only ever created
      inside [Put] by the node constructor), so the pointer structure is a
      tree and in-place mutation of a child is rendered by writing the
      updated child back under the same map key.
    - The [children] map of the source is a finite map ([gmap]); the token
      type [K] of the token-sequence trie is any countable type with a
      decidable equality.  Equality on [K] is reflexive: a map key that is
      not equal to itself (a floating-point NaN) is outside the model.
    - The per-node lock only orders concurrent accesses; the embedding gives
      the sequential semantics of a single caller and has no lock field.
    - The zero value of the value type [V] is the section variable [zero].
    - A call either returns or panics; [completion] records which. *)

From stdpp Require Import gmap strings list fin_maps.

(** How a call ended: normal return, or a Go [panic] with its message. *)
Inductive completion : Type :=
  | Returned
  | Panicked (msg : string).

(** ** The token-sequence trie *)
Module Slice.
Section SliceTrie.
Context {K : Type} `{Countable K} {V : Type} (zero : V).

(** [type sliceTrie[K comparable, V any] struct { lock; children; value }] *)
#[warnings="-register-all"]
Inductive sliceTrie : Type :=
  SliceTrie { children : gmap K sliceTrie; value : V }.

(** [newSliceTrie]: an empty [children] map and the zero value. *)
Definition newSliceTrie : sliceTrie := SliceTrie ∅ zero.

(** [NewSlice] returns the fresh node behind the [Slice] interface. *)
Definition NewSlice : sliceTrie := newSliceTrie.

(** [func (t *sliceTrie[K, V]) Put(path []K, value V)] *)
Fixpoint Put (t : sliceTrie) (path : list K) (val : V) {struct path} : sliceTrie :=
  match path with
  | [] => SliceTrie (children t) val
  | key :: rest =>
      let child := match children t !! key with
                   | Some child => child
                   | None => newSliceTrie
                   end in
      SliceTrie (<[key := Put child rest val]> (children t)) (value t)
  end.

(** [func (t *sliceTrie[K, V]) Get(path []K) (value V, found bool)] *)
Fixpoint Get (t : sliceTrie) (path : list K) {struct path} : V * bool :=
  match path with
  | [] => (value t, true)
  | key :: rest =>
      match children t !! key with
      | None => (zero, false)
      | Some child => Get child rest
      end
  end.

(** [func (t *sliceTrie[K, V]) Delete(path []K)]: the resulting state of the
    receiver and how the call ended. *)
Fixpoint Delete (t : sliceTrie) (path : list K) {struct path}
  : sliceTrie * completion :=
  match path with
  | [] => (t, Panicked "trie: cannot delete self")
  | key :: rest =>
      match rest with
      | [] => (SliceTrie (delete key (children t)) (value t), Returned)
      | _ :: _ =>
          match children t !! key with
          | None => (t, Returned)
          | Some child =>
              let '(child', c) := Delete child rest in
              (SliceTrie (<[key := child']> (children t)) (value t), c)
          end
      end
  end.

(** A caller deleting the keys [ks] one after the other; a panic ends the
    sequence. *)
Fixpoint DeleteAll (t : sliceTrie) (ks : list (list K))
  : sliceTrie * completion :=
  match ks with
  | [] => (t, Returned)
  | k :: ks' =>
      match Delete t k with
      | (t', Returned) => DeleteAll t' ks'
      | (t', Panicked msg) => (t', Panicked msg)
      end
  end.

End SliceTrie.
End Slice.

(** ** The delimited-string trie *)
Module Str.

(** [strings.Index(s, substr)]: the position of the first occurrence of
    [substr] in [s]; [None] stands for the result [-1]. *)
Fixpoint Index (s substr : string) : option nat :=
  if String.prefix substr s then Some 0
  else match s with
       | EmptyString => None
       | String _ s' => S <$> Index s' substr
       end.

(** [strings.Cut(s, sep)]:
    [if i := Index(s, sep); i >= 0 { return s[:i], s[i+len(sep):], true }]
    [return s, "", false] *)
Definition Cut (s sep : string) : string * string * bool :=
  match Index s sep with
  | Some i =>
      (String.substring 0 i s,
       String.substring (i + String.length sep)
                 (String.length s - (i + String.length sep)) s,
       true)
  | None => (s, "", false)
  end.

(** [strings.Join(elems, sep)] *)
Fixpoint Join (elems : list string) (sep : string) : string :=
  match elems with
  | [] => ""
  | e :: rest =>
      match rest with
      | [] => e
      | _ :: _ => e +:+ sep +:+ Join rest sep
      end
  end.

Section StringTrie.
Context {V : Type} (zero : V).

(** [type stringTrie[V any] struct { lock; children; delimiter; value }] *)
#[warnings="-register-all"]
Inductive stringTrie : Type :=
  StringTrie {
    children : gmap string stringTrie;
    delimiter : string;
    value : V }.

(** [newStringTrie(delimiter)] *)
Definition newStringTrie (delimiter : string) : stringTrie :=
  StringTrie ∅ delimiter zero.

(** [New(delimiter)] *)
Definition New (delimiter : string) : stringTrie := newStringTrie delimiter.

(** [func (t *stringTrie[V]) Delimiter() string] *)
Definition Delimiter (t : stringTrie) : string := delimiter t.

(** The methods recurse on the remainder returned by [Cut], which is not a
    structural argument (and is not even shorter when the delimiter is
    empty), so each takes a bound [fuel] on the depth of the recursion;
    [None] means the call has not returned within that depth. *)

(** [func (t *stringTrie[V]) Put(path string, value V)] *)
Fixpoint Put (fuel : nat) (t : stringTrie) (path : string) (val : V)
  : option stringTrie :=
  match fuel with
  | O => None
  | S fuel =>
      if decide (path = "") then
        Some (StringTrie (children t) (delimiter t) val)
      else
        let '(key, path, _) := Cut path (delimiter t) in
        let child := match children t !! key with
                     | Some child => child
                     | None => newStringTrie (delimiter t)
                     end in
        child' ← Put fuel child path val;
        Some (StringTrie (<[key := child']> (children t))
                         (delimiter t) (value t))
  end.

(** [func (t *stringTrie[V]) Get(path string) (value V, found bool)] *)
Fixpoint Get (fuel : nat) (t : stringTrie) (path : string)
  : option (V * bool) :=
  match fuel with
  | O => None
  | S fuel =>
      if decide (path = "") then Some (value t, true)
      else
        let '(key, path, _) := Cut path (delimiter t) in
        match children t !! key with
        | None => Some (zero, false)
        | Some child => Get fuel child path
        end
  end.

(** [func (t *stringTrie[V]) Delete(path string)] *)
Fixpoint Delete (fuel : nat) (t : stringTrie) (path : string)
  : option stringTrie :=
  match fuel with
  | O => None
  | S fuel =>
      let '(key, path, _) := Cut path (delimiter t) in
      if decide (path = "") then
        Some (StringTrie (delete key (children t)) (delimiter t) (value t))
      else
        match children t !! key with
        | None => Some t
        | Some child =>
            child' ← Delete fuel child path;
            Some (StringTrie (<[key := child']> (children t))
                             (delimiter t) (value t))
        end
  end.

(** The sequence of child keys that the descent of [Put] and [Get] consumes
    for [path] under delimiter [d]. *)
Fixpoint segments_fuel (fuel : nat) (d path : string) : option (list string) :=
  match fuel with
  | O => None
  | S fuel =>
      if decide (path = "") then Some []
      else
        let '(key, path, _) := Cut path d in
        (key ::.) <$> segments_fuel fuel d path
  end.

Definition segments (d path : string) : option (list string) :=
  segments_fuel (S (String.length path)) d path.

(** Forgetting the per-node delimiter gives a token-sequence trie over
    string tokens. *)
Fixpoint erase (t : stringTrie) : Slice.sliceTrie (K:=string) (V:=V) :=
  Slice.SliceTrie (erase <$> children t) (value t).

(** Every node of a trie carries the delimiter [d]. *)
Inductive wf (d : string) : stringTrie → Prop :=
  | wf_node ch v :
      (∀ k c, ch !! k = Some c → wf d c) → wf d (StringTrie ch d v).

(** The states a trie created by [New d] can be in: those obtained from the
    fresh trie by calls of [Put] and [Delete] that returned. *)
Inductive reachable (d : string) : stringTrie → Prop :=
  | reachable_New : reachable d (New d)
  | reachable_Put fuel t path val t' :
      reachable d t → Put fuel t path val = Some t' → reachable d t'
  | reachable_Delete fuel t path t' :
      reachable d t → Delete fuel t path = Some t' → reachable d t'.

(** [a] and [b] are walked to completion and the segments of [a] are an
    initial part of those of [b]. *)
Definition segments_prefix (d a b : string) : Prop :=
  ∃ wa wb, segments d a = Some wa ∧ segments d b = Some wb ∧
           wa `prefix_of` wb.

(** A caller deleting the keys [ks] one after the other. *)
Fixpoint DeleteAll (fuel : nat) (t : stringTrie) (ks : list string)
  : option stringTrie :=
  match ks with
  | [] => Some t
  | k :: ks' => t' ← Delete fuel t k; DeleteAll fuel t' ks'
  end.

End StringTrie.
End Str.

(** * Facts about the token-sequence trie *)
Module SliceFacts.
Import Slice.
Section Facts.
Context {K : Type} `{Countable K} {V : Type} (zero : V).

Local Abbreviation sliceTrie := (sliceTrie (K:=K) (V:=V)).
Local Abbreviation newSliceTrie := (newSliceTrie zero).
Local Abbreviation Put := (Put zero).
Local Abbreviation Get := (Get zero).

(** *** Basic facts *)

Lemma sliceTrie_eta (t : sliceTrie) : SliceTrie (children t) (value t) = t.
Proof. by destruct t. Qed.

Lemma Get_nil (t : sliceTrie) : Get t [] = (value t, true).
Proof. done. Qed.

Lemma Get_newSliceTrie (path : list K) :
  path ≠ [] → Get newSliceTrie path = (zero, false).
Proof. by destruct path. Qed.

Lemma Get_Put_same (t : sliceTrie) (path : list K) (val : V) :
  Get (Put t path val) path = (val, true).
Proof.
  revert t. induction path as [|key rest IH]; intros t; simpl; [done|].
  by rewrite lookup_insert_eq.
Qed.

(** [Put] leaves every key that is not a prefix of the written key alone. *)
Lemma Get_Put_frame (t : sliceTrie) (k k' : list K) (val : V) :
  ¬ k' `prefix_of` k → Get (Put t k val) k' = Get t k'.
Proof.
  revert t k. induction k' as [|a r IH]; intros t k Hpre.
  { destruct Hpre. apply prefix_nil. }
  destruct k as [|b rk]; simpl; [done|].
  destruct (decide (b = a)) as [->|Hne].
  - rewrite lookup_insert_eq.
    assert (¬ r `prefix_of` rk) as Hr.
    { intros Hp. apply Hpre. by apply prefix_cons. }
    rewrite IH by done.
    destruct (children t !! a); [done|].
    apply Get_newSliceTrie. intros ->. apply Hr, prefix_nil.
  - by rewrite lookup_insert_ne.
Qed.

(** Reading a proper prefix of the written key: the node exists afterwards,
    with the value it had, or the zero value when [Put] created it. *)
Lemma Get_Put_prefix (t : sliceTrie) (p q : list K) (val : V) :
  q ≠ [] →
  Get (Put t (p ++ q) val) p =
    (if snd (Get t p) then fst (Get t p) else zero, true).
Proof.
  intros Hq. revert t. induction p as [|a r IH]; intros t; simpl.
  - by destruct q.
  - rewrite lookup_insert_eq, IH.
    destruct (children t !! a) as [c|]; [done|].
    destruct r; simpl; [done|]. by rewrite lookup_empty.
Qed.

(** *** Facts about [Delete] *)

Lemma Delete_nil (t : sliceTrie) :
  Delete t [] = (t, Panicked "trie: cannot delete self").
Proof. done. Qed.

Lemma Delete_cons_cons (t : sliceTrie) (key k2 : K) (rest : list K) :
  Delete t (key :: k2 :: rest) =
    match children t !! key with
    | None => (t, Returned)
    | Some child =>
        let '(child', c) := Delete child (k2 :: rest) in
        (SliceTrie (<[key := child']> (children t)) (value t), c)
    end.
Proof. done. Qed.

Lemma Delete_returns (t : sliceTrie) (path : list K) :
  path ≠ [] → snd (Delete t path) = Returned.
Proof.
  revert t. induction path as [|key rest IH]; intros t Hne; [done|].
  simpl. destruct rest as [|k2 rest']; [done|].
  destruct (children t !! key) as [child|]; [|done].
  specialize (IH child ltac:(done)).
  by destruct (Delete child (k2 :: rest')).
Qed.

(** After [Delete path] neither the node of [path] nor any node below it
    can be found. *)
Lemma Get_Delete_below (t : sliceTrie) (path q : list K) :
  path ≠ [] → Get (fst (Delete t path)) (path ++ q) = (zero, false).
Proof.
  revert t. induction path as [|key rest IH]; intros t Hne; [done|].
  simpl. destruct rest as [|k2 rest'].
  { simpl. by rewrite lookup_delete_eq. }
  destruct (children t !! key) as [child|] eqn:Hc.
  - specialize (IH child ltac:(done)).
    destruct (Delete child (k2 :: rest')) as [child' c]. simpl in *.
    by rewrite lookup_insert_eq.
  - simpl. by rewrite Hc.
Qed.

(** [Delete] only affects keys that have the deleted key as a prefix. *)
Lemma Get_Delete_frame (t : sliceTrie) (path k' : list K) :
  path ≠ [] → ¬ path `prefix_of` k' →
  Get (fst (Delete t path)) k' = Get t k'.
Proof.
  revert t k'. induction path as [|key rest IH]; intros t k' Hne Hpre; [done|].
  simpl. destruct rest as [|k2 rest'].
  { destruct k' as [|a r]; simpl; [done|].
    rewrite lookup_delete_ne; [done|]. intros ->. apply Hpre.
    apply prefix_cons, prefix_nil. }
  destruct (children t !! key) as [child|] eqn:Hc; [|done].
  specialize (IH child).
  destruct (Delete child (k2 :: rest')) as [child' c]. simpl in *.
  destruct k' as [|a r]; simpl; [done|].
  destruct (decide (key = a)) as [->|Hka].
  - rewrite lookup_insert_eq, Hc. apply IH; [done|].
    intros Hp. apply Hpre. by apply prefix_cons.
  - by rewrite lookup_insert_ne.
Qed.

(** Deleting below a missing node, or deleting a missing node, changes
    nothing. *)
Lemma Delete_absent (t : sliceTrie) (path p : list K) :
  path ≠ [] → p `prefix_of` path → snd (Get t p) = false →
  Delete t path = (t, Returned).
Proof.
  revert t p. induction path as [|key rest IH]; intros t p Hne Hp Hget; [done|].
  destruct p as [|a r]; [done|].
  apply prefix_cons_inv_1 in Hp as Heq. subst a.
  apply prefix_cons_inv_2 in Hp.
  simpl in Hget |- *.
  destruct (children t !! key) as [child|] eqn:Hc.
  - destruct rest as [|k2 rest'].
    { apply prefix_nil_inv in Hp. by subst r. }
    rewrite (IH child r) by done.
    by rewrite insert_id, sliceTrie_eta.
  - destruct rest as [|k2 rest']; [|done].
    by rewrite delete_id, sliceTrie_eta.
Qed.

(** [Delete] never changes what is found afterwards. *)
Lemma Get_Delete_found (t : sliceTrie) (path k' : list K) :
  path ≠ [] → snd (Get (fst (Delete t path)) k') = true →
  Get (fst (Delete t path)) k' = Get t k'.
Proof.
  intros Hne Hfound. destruct (decide (path `prefix_of` k')) as [[q ->]|Hpre].
  - by rewrite Get_Delete_below in Hfound.
  - by apply Get_Delete_frame.
Qed.

Lemma app_not_prefix (p q : list K) : q ≠ [] → ¬ (p ++ q) `prefix_of` p.
Proof.
  intros Hq Hpre%prefix_length. rewrite length_app in Hpre.
  destruct q; simpl in *; [done|lia].
Qed.

(** Deleting keys strictly below [p] leaves the node of [p] in place. *)
Lemma Get_DeleteAll_above (t : sliceTrie) (p : list K) (ks : list (list K)) :
  Forall (λ k, ∃ q, q ≠ [] ∧ k = p ++ q) ks →
  snd (DeleteAll t ks) = Returned ∧ Get (fst (DeleteAll t ks)) p = Get t p.
Proof.
  intros Hks. revert t. induction Hks as [|k ks (q & Hq & ->) _ IH]; intros t.
  { done. }
  simpl. assert (p ++ q ≠ []) as Hne by (by destruct p, q).
  pose proof (Delete_returns t (p ++ q) Hne) as Hret.
  pose proof (Get_Delete_frame t (p ++ q) p Hne (app_not_prefix p q Hq)) as Hfr.
  destruct (Delete t (p ++ q)) as [t' c]. simpl in *. subst c.
  destruct (IH t') as [-> ->]. done.
Qed.

(** *** Which keys are found *)

(** The node of a key exists only if the nodes of all its prefixes do. *)
Lemma Get_found_prefix (t : sliceTrie) (p q : list K) :
  snd (Get t (p ++ q)) = true → snd (Get t p) = true.
Proof.
  revert t. induction p as [|a r IH]; intros t; simpl; [done|].
  destruct (children t !! a) as [c|]; [apply IH|done].
Qed.

(** [Put] keeps every node that exists, with its value, except that it
    writes the value of its own key. *)
Lemma Get_Put_kept (t : sliceTrie) (k k' : list K) (val : V) :
  k' ≠ k → snd (Get t k') = true → Get (Put t k val) k' = Get t k'.
Proof.
  intros Hne Hfound. destruct (decide (k' `prefix_of` k)) as [[q ->]|Hpre].
  - rewrite Get_Put_prefix.
    + rewrite Hfound. by destruct (Get t k') as [x b]; simpl in *; subst.
    + intros ->. by rewrite app_nil_r in Hne.
  - by apply Get_Put_frame.
Qed.

(** After [Put k] exactly the keys found before and the prefixes of [k]
    are found. *)
Lemma Get_Put_found (t : sliceTrie) (k k' : list K) (val : V) :
  snd (Get (Put t k val) k') = true ↔
  snd (Get t k') = true ∨ k' `prefix_of` k.
Proof.
  destruct (decide (k' `prefix_of` k)) as [[q ->]|Hpre].
  - split; [intros _; right; by exists q|intros _].
    destruct (decide (q = [])) as [->|Hq].
    + by rewrite app_nil_r, Get_Put_same.
    + by rewrite Get_Put_prefix.
  - rewrite Get_Put_frame by done. split; [by left|by intros [?|?]].
Qed.

(** *** How calls compose *)

(** The last [Put] of a key wins, and the first leaves no trace. *)
Lemma Put_Put_same (t : sliceTrie) (k : list K) (v1 v2 : V) :
  Put (Put t k v1) k v2 = Put t k v2.
Proof.
  revert t. induction k as [|a r IH]; intros t; simpl; [done|].
  rewrite lookup_insert_eq, insert_insert_eq. by rewrite IH.
Qed.

(** [Put]s of different keys can be swapped. *)
Lemma Put_Put_comm (t : sliceTrie) (k1 k2 : list K) (v1 v2 : V) :
  k1 ≠ k2 → Put (Put t k1 v1) k2 v2 = Put (Put t k2 v2) k1 v1.
Proof.
  revert t k2. induction k1 as [|a r1 IH]; intros t [|b r2] Hne; simpl;
    [done..|].
  destruct (decide (a = b)) as [->|Hab].
  - rewrite !lookup_insert_eq, !insert_insert_eq.
    rewrite IH; [done|]. intros ->. done.
  - rewrite !lookup_insert_ne by done.
    by rewrite insert_insert_ne.
Qed.

Lemma Delete_cons_nonempty (t : sliceTrie) (key : K) (rest : list K) :
  rest ≠ [] →
  Delete t (key :: rest) =
    match children t !! key with
    | None => (t, Returned)
    | Some child =>
        let '(child', c) := Delete child rest in
        (SliceTrie (<[key := child']> (children t)) (value t), c)
    end.
Proof. by destruct rest. Qed.

(** [Delete] undoes a [Put] that created only the last node of its key. *)
Lemma Delete_Put_undo (t : sliceTrie) (p : list K) (a : K) (val : V) :
  snd (Get t p) = true → snd (Get t (p ++ [a])) = false →
  Delete (Put t (p ++ [a]) val) (p ++ [a]) = (t, Returned).
Proof.
  revert t. induction p as [|b r IH]; intros t.
  - simpl. intros _. destruct (children t !! a) as [c|] eqn:Hc; [done|].
    intros _. rewrite delete_insert_eq, delete_id by done.
    by rewrite sliceTrie_eta.
  - change ((b :: r) ++ [a]) with (b :: (r ++ [a])). intros Hr Ha.
    rewrite Delete_cons_nonempty by (by destruct r). simpl in *.
    destruct (children t !! b) as [c|] eqn:Hc; [|done].
    rewrite lookup_insert_eq, IH by done.
    rewrite insert_insert_eq, insert_id by done. by rewrite sliceTrie_eta.
Qed.

Lemma Delete_fst_cons (t : sliceTrie) (key : K) (rest : list K) :
  rest ≠ [] →
  fst (Delete t (key :: rest)) =
    match children t !! key with
    | None => t
    | Some child =>
        SliceTrie (<[key := fst (Delete child rest)]> (children t)) (value t)
    end.
Proof.
  intros Hne. rewrite Delete_cons_nonempty by done.
  destruct (children t !! key) as [c|]; [|done].
  by destruct (Delete c rest).
Qed.

(** [Delete]s can be swapped. *)
Lemma Delete_Delete_comm (t : sliceTrie) (k1 k2 : list K) :
  k1 ≠ [] → k2 ≠ [] →
  fst (Delete (fst (Delete t k1)) k2) = fst (Delete (fst (Delete t k2)) k1).
Proof.
  revert t k2. induction k1 as [|a r1 IH]; intros t [|b r2] H1 H2; try done.
  destruct (decide (r1 = [])) as [->|Hr1], (decide (r2 = [])) as [->|Hr2].
  - simpl. by rewrite delete_delete.
  - rewrite (Delete_fst_cons t b r2), (Delete_fst_cons _ b r2) by done. simpl.
    destruct (decide (a = b)) as [->|Hab].
    + rewrite lookup_delete_eq.
      destruct (children t !! b); simpl; [|done].
      by rewrite delete_insert_eq.
    + rewrite lookup_delete_ne by done.
      destruct (children t !! b); simpl; [|done].
      by rewrite delete_insert_ne.
  - rewrite (Delete_fst_cons t a r1), (Delete_fst_cons _ a r1) by done. simpl.
    destruct (decide (a = b)) as [->|Hab].
    + rewrite lookup_delete_eq.
      destruct (children t !! b); simpl; [|done].
      by rewrite delete_insert_eq.
    + rewrite lookup_delete_ne by done.
      destruct (children t !! a); simpl; [|done].
      by rewrite delete_insert_ne.
  - rewrite (Delete_fst_cons t a r1), (Delete_fst_cons t b r2) by done.
    destruct (decide (a = b)) as [->|Hab].
    + destruct (children t !! b) as [c|] eqn:Hc.
      * rewrite !Delete_fst_cons by done. simpl.
        rewrite !lookup_insert_eq, !insert_insert_eq. by rewrite IH.
      * by rewrite !Delete_fst_cons, Hc by done.
    + destruct (children t !! a) as [ca|] eqn:Ha,
               (children t !! b) as [cb|] eqn:Hb;
        rewrite !Delete_fst_cons by done; simpl;
        rewrite ?lookup_insert_ne by done; rewrite ?Ha, ?Hb; try done.
      by rewrite insert_insert_ne.
Qed.

(** Re-creating a deleted key gives a node without children. *)
Lemma Get_Put_Delete_below (t : sliceTrie) (k q : list K) (val : V) :
  k ≠ [] → q ≠ [] →
  Get (Put (fst (Delete t k)) k val) (k ++ q) = (zero, false).
Proof.
  intros Hk Hq. rewrite Get_Put_frame.
  - by apply Get_Delete_below.
  - by apply app_not_prefix.
Qed.

End Facts.
End SliceFacts.

(** * Facts about the delimited-string trie *)
Module StrFacts.
Import Str.

(** *** Facts about [Cut] *)

Lemma substring_length_le (n m : nat) (s : string) :
  String.length (String.substring n m s) ≤ m.
Proof.
  revert n m. induction s as [|c s IH]; intros [|n] [|m]; simpl; try lia.
  - specialize (IH 0 m). lia.
  - apply (IH n 0).
  - apply (IH n (S m)).
Qed.

Lemma substring_all (s : string) : String.substring 0 (String.length s) s = s.
Proof. induction s as [|c s IH]; simpl; [done|]. by rewrite IH. Qed.

(** With an empty separator [Index] is [0]: nothing is consumed. *)
Lemma Cut_empty_sep (s : string) : Cut s "" = ("", s, true).
Proof.
  unfold Cut. destruct s as [|c s]; simpl; [done|].
  by rewrite substring_all.
Qed.

Lemma Cut_empty (sep : string) : fst (Cut "" sep) = ("", "").
Proof. by destruct sep. Qed.

(** With a non-empty separator the remainder is strictly shorter. *)
Lemma Cut_length (s sep : string) :
  sep ≠ "" → s ≠ "" →
  String.length (snd (fst (Cut s sep))) < String.length s.
Proof.
  intros Hsep Hs. unfold Cut.
  assert (0 < String.length sep) by (destruct sep; simpl; [done|lia]).
  assert (0 < String.length s) by (destruct s; simpl; [done|lia]).
  destruct (Index s sep) as [i|]; simpl; [|done].
  pose proof (substring_length_le (i + String.length sep)
    (String.length s - (i + String.length sep)) s). lia.
Qed.

(** *** [Cut] splits at the first occurrence of the separator *)

Lemma Index_eq (s sep : string) :
  Index s sep =
    if String.prefix sep s then Some 0
    else match s with
         | EmptyString => None
         | String _ s' => S <$> Index s' sep
         end.
Proof. by destruct s. Qed.

Lemma append_String (c : Ascii.ascii) (s1 s2 : string) :
  String c s1 +:+ s2 = String c (s1 +:+ s2).
Proof. reflexivity. Qed.

Lemma append_empty (s : string) : "" +:+ s = s.
Proof. reflexivity. Qed.

Lemma append_empty_r (s : string) : s +:+ "" = s.
Proof.
  induction s as [|c s IH]; [done|]. by rewrite append_String, IH.
Qed.

Lemma append_assoc (s1 s2 s3 : string) :
  (s1 +:+ s2) +:+ s3 = s1 +:+ s2 +:+ s3.
Proof.
  induction s1 as [|c s1 IH]; [done|]. by rewrite !append_String, IH.
Qed.

Lemma prefix_split (p s : string) :
  String.prefix p s = true →
  s = p +:+ String.substring (String.length p)
                             (String.length s - String.length p) s.
Proof.
  revert s. induction p as [|c p IH]; intros s Hp; simpl.
  - by rewrite append_empty, Nat.sub_0_r, substring_all.
  - destruct s as [|c' s]; simpl in *; [done|].
    destruct (Ascii.ascii_dec c c') as [->|]; [|done].
    rewrite append_String. f_equal. by apply IH.
Qed.

Lemma prefix_substring (p s : string) (n : nat) :
  String.prefix p (String.substring 0 n s) = true → String.prefix p s = true.
Proof.
  revert s n. induction p as [|c p IH]; intros s n.
  - by destruct s.
  - destruct s as [|c' s], n as [|n]; simpl; try done.
    destruct (Ascii.ascii_dec c c'); [apply IH|done].
Qed.

Lemma prefix_empty (p : string) : p ≠ "" → String.prefix p "" = false.
Proof. by destruct p. Qed.

Lemma Index_split (s sep : string) (i : nat) :
  Index s sep = Some i →
  s = String.substring 0 i s +:+ sep +:+
      String.substring (i + String.length sep)
                       (String.length s - (i + String.length sep)) s.
Proof.
  revert i. induction s as [|c s IH]; intros i; rewrite Index_eq.
  - destruct (String.prefix sep "") eqn:Hp; [|done]. intros [= <-].
    by destruct sep.
  - destruct (String.prefix sep (String c s)) eqn:Hp.
    + intros [= <-]. by apply prefix_split in Hp.
    + destruct (Index s sep) as [i'|]; [|done]. intros [= <-]. simpl.
      rewrite append_String. f_equal. by apply IH.
Qed.

Lemma Index_head (s sep : string) (i : nat) :
  sep ≠ "" → Index s sep = Some i →
  Index (String.substring 0 i s) sep = None.
Proof.
  intros Hsep. revert i. induction s as [|c s IH]; intros i; rewrite Index_eq.
  - by rewrite prefix_empty.
  - destruct (String.prefix sep (String c s)) eqn:Hp.
    + intros [= <-]. simpl. by destruct sep.
    + destruct (Index s sep) as [i'|]; [|done]. intros [= <-].
      rewrite Index_eq.
      destruct (String.prefix sep (String.substring 0 (S i') (String c s)))
        eqn:Hp'.
      { apply prefix_substring in Hp'. congruence. }
      simpl. by rewrite IH.
Qed.

(** When the separator is found the three parts make up the string again;
    otherwise the head is the whole string.  The head never contains a
    non-empty separator. *)
Lemma Cut_found (s sep before after : string) :
  Cut s sep = (before, after, true) → s = before +:+ sep +:+ after.
Proof.
  unfold Cut. destruct (Index s sep) as [i|] eqn:Hi; [|done].
  intros [= <- <-]. by apply Index_split.
Qed.

Lemma Cut_not_found (s sep before after : string) :
  Cut s sep = (before, after, false) →
  before = s ∧ after = "" ∧ Index s sep = None.
Proof.
  unfold Cut. destruct (Index s sep) as [i|] eqn:Hi; [done|].
  by intros [= <- <-].
Qed.

Lemma Cut_head (s sep before after : string) (found : bool) :
  sep ≠ "" → Cut s sep = (before, after, found) → Index before sep = None.
Proof.
  intros Hsep. unfold Cut. destruct (Index s sep) as [i|] eqn:Hi.
  - intros [= <- _ _]. by apply Index_head.
  - by intros [= <- _ _].
Qed.

Lemma Cut_self (sep : string) : fst (Cut sep sep) = ("", "").
Proof.
  unfold Cut. rewrite Index_eq.
  assert (String.prefix sep sep = true) as ->.
  { induction sep as [|c sep IH]; simpl; [done|].
    by destruct (Ascii.ascii_dec c c). }
  simpl. rewrite Nat.sub_diag.
  f_equal; [by destruct sep|].
  generalize (String.length sep). intros n. revert n.
  induction sep as [|c sep IH]; intros [|n]; simpl; auto.
Qed.

Section Facts.
Context {V : Type} (zero : V).

Local Abbreviation stringTrie := (stringTrie (V:=V)).
Local Abbreviation newStringTrie := (newStringTrie zero).
Local Abbreviation New := (New zero).
Local Abbreviation Put := (Put zero).
Local Abbreviation Get := (Get zero).
Local Abbreviation reachable := (reachable zero).

(** *** Well-formedness *)

Lemma wf_delimiter (d : string) (t : stringTrie) : wf d t → delimiter t = d.
Proof. by intros []. Qed.

Lemma wf_child (d : string) (t c : stringTrie) (k : string) :
  wf d t → children t !! k = Some c → wf d c.
Proof. intros [ch v Hch] Hk. by apply (Hch k). Qed.

Lemma wf_newStringTrie (d : string) : wf d (newStringTrie d).
Proof. constructor. intros k c Hk. by rewrite lookup_empty in Hk. Qed.

Lemma wf_insert (d key : string) (t c : stringTrie) :
  wf d t → wf d c →
  wf d (StringTrie (<[key := c]> (children t)) (delimiter t) (value t)).
Proof.
  intros Ht Hc. rewrite (wf_delimiter d t Ht). constructor.
  intros k c' Hk. destruct (decide (key = k)) as [->|Hne].
  - rewrite lookup_insert_eq in Hk. by simplify_eq.
  - rewrite lookup_insert_ne in Hk by done. by apply (wf_child d t c' k).
Qed.

Lemma wf_child_or_new (d key : string) (t : stringTrie) :
  wf d t →
  wf d (match children t !! key with
        | Some child => child
        | None => newStringTrie (delimiter t)
        end).
Proof.
  intros Ht. destruct (children t !! key) as [c|] eqn:Hc.
  - by apply (wf_child d t c key).
  - rewrite (wf_delimiter d t Ht). apply wf_newStringTrie.
Qed.

Lemma Put_wf (d : string) (fuel : nat) (t t' : stringTrie)
    (path : string) (val : V) :
  wf d t → Put fuel t path val = Some t' → wf d t'.
Proof.
  revert t t' path. induction fuel as [|fuel IH]; intros t t' path Ht; [done|].
  simpl. case_decide.
  - intros [= <-]. destruct Ht. by constructor.
  - destruct (Cut path (delimiter t)) as [[key rest] found].
    pose proof (wf_child_or_new d key t Ht) as Hc.
    destruct (Put fuel _ rest val) as [c'|] eqn:Hput; [|done].
    intros [= <-]. apply wf_insert; [done|]. by eapply IH.
Qed.

Lemma Delete_wf (d : string) (fuel : nat) (t t' : stringTrie) (path : string) :
  wf d t → Delete fuel t path = Some t' → wf d t'.
Proof.
  revert t t' path. induction fuel as [|fuel IH]; intros t t' path Ht; [done|].
  simpl. destruct (Cut path (delimiter t)) as [[key rest] found].
  case_decide.
  - intros [= <-]. destruct Ht as [ch v Hch]. constructor.
    intros k c Hk. apply lookup_delete_Some in Hk as [_ Hk]. by apply (Hch k).
  - destruct (children t !! key) as [c|] eqn:Hc; [|by intros [= <-]].
    destruct (Delete fuel c rest) as [c'|] eqn:Hdel; [|done].
    intros [= <-]. apply wf_insert; [done|].
    eapply IH; [|done]. by apply (wf_child d t c key).
Qed.

Lemma reachable_wf (d : string) (t : stringTrie) : reachable d t → wf d t.
Proof.
  induction 1 as [|fuel t path val t' _ IH Hput|fuel t path t' _ IH Hdel].
  - apply wf_newStringTrie.
  - by eapply Put_wf.
  - by eapply Delete_wf.
Qed.

(** *** The empty delimiter *)

(** With the empty delimiter [Cut] consumes nothing, so [Put] of a non-empty
    path calls itself on the same path for ever: no recursion depth is
    enough for it to return. *)
Lemma Put_empty_delimiter (fuel : nat) (t : stringTrie) (path : string)
    (val : V) :
  wf "" t → path ≠ "" → Put fuel t path val = None.
Proof.
  revert t. induction fuel as [|fuel IH]; intros t Ht Hpath; [done|].
  simpl. case_decide; [done|].
  pose proof (wf_child_or_new "" "" t Ht) as Hc.
  rewrite (wf_delimiter "" t Ht) in *. rewrite Cut_empty_sep.
  by rewrite IH.
Qed.

(** Hence a trie with the empty delimiter never gets a child. *)
Lemma reachable_empty_delimiter (t : stringTrie) :
  reachable "" t → children t = ∅.
Proof.
  induction 1 as [|fuel t path val t' Hr IH Hput|fuel t path t' Hr IH Hdel].
  - done.
  - destruct (decide (path = "")) as [->|Hne].
    + destruct fuel; [done|]. simpl in Hput. by simplify_eq.
    + by rewrite Put_empty_delimiter in Hput by auto using reachable_wf.
  - destruct fuel as [|fuel]; [done|]. simpl in Hdel.
    destruct (Cut path (delimiter t)) as [[key rest] found].
    case_decide.
    + simplify_eq. simpl. rewrite IH. apply delete_empty.
    + rewrite IH, lookup_empty in Hdel. by simplify_eq.
Qed.

Lemma Get_no_children (fuel : nat) (t : stringTrie) (path : string) :
  children t = ∅ → path ≠ "" → Get (S fuel) t path = Some (zero, false).
Proof.
  intros Hch Hpath. simpl. case_decide; [done|].
  destruct (Cut path (delimiter t)) as [[key rest] found].
  by rewrite Hch, lookup_empty.
Qed.

Lemma Delete_no_children (fuel : nat) (t : stringTrie) (path : string) :
  children t = ∅ → Delete (S fuel) t path = Some t.
Proof.
  intros Hch. simpl.
  destruct (Cut path (delimiter t)) as [[key rest] found].
  rewrite Hch, lookup_empty, delete_empty, <- Hch.
  destruct t. by case_decide.
Qed.

(** *** The walked sequence of segments *)

Lemma segments_fuel_mono (f f' : nat) (d path : string) (ws : list string) :
  segments_fuel f d path = Some ws → f ≤ f' →
  segments_fuel f' d path = Some ws.
Proof.
  revert f' path ws. induction f as [|f IH]; intros f' path ws; [done|].
  intros Hs Hle. destruct f' as [|f']; [lia|]. simpl in *.
  case_decide; [done|].
  destruct (Cut path d) as [[key rest] found].
  destruct (segments_fuel f d rest) as [ws'|] eqn:Hrest; [|done].
  by rewrite (IH f' rest ws') by (done || lia).
Qed.

Lemma segments_fuel_total (f : nat) (d path : string) :
  d ≠ "" → String.length path < f → is_Some (segments_fuel f d path).
Proof.
  intros Hd. revert path. induction f as [|f IH]; intros path Hlen; [lia|].
  simpl. case_decide; [done|].
  pose proof (Cut_length path d Hd ltac:(done)) as Hcut.
  destruct (Cut path d) as [[key rest] found]. simpl in Hcut.
  destruct (IH rest ltac:(lia)) as [ws ->]. done.
Qed.

Lemma segments_fuel_empty_delimiter (f : nat) (path : string) :
  path ≠ "" → segments_fuel f "" path = None.
Proof.
  intros Hpath. induction f as [|f IH]; [done|]. simpl.
  case_decide; [done|]. by rewrite Cut_empty_sep, IH.
Qed.

(** The walk of a path ends exactly when the delimiter is non-empty or the
    path is empty. *)
Lemma segments_is_Some (d path : string) :
  is_Some (segments d path) ↔ d ≠ "" ∨ path = "".
Proof.
  unfold segments. split.
  - intros [ws Hws]. destruct (decide (d = "")) as [->|]; [|by left].
    right. destruct (decide (path = "")); [done|].
    by rewrite segments_fuel_empty_delimiter in Hws.
  - intros [Hd| ->]; [|done]. apply segments_fuel_total; [done|lia].
Qed.

Lemma segments_segments_fuel (f : nat) (d path : string) (ws : list string) :
  segments d path = Some ws → String.length path < f →
  segments_fuel f d path = Some ws.
Proof. intros Hs Hlen. apply (segments_fuel_mono _ _ _ _ _ Hs). lia. Qed.

Lemma segments_fuel_nil (f : nat) (d path : string) :
  segments_fuel f d path = Some [] → path = "".
Proof.
  destruct f as [|f]; [done|]. simpl. case_decide; [done|].
  destruct (Cut path d) as [[key rest] found].
  by destruct (segments_fuel f d rest).
Qed.

(** *** The string trie as a token-sequence trie over its segments *)

Lemma erase_children (t : stringTrie) :
  Slice.children (erase t) = erase <$> children t.
Proof. by destruct t. Qed.

Lemma erase_StringTrie (ch : gmap string stringTrie) (d : string) (v : V) :
  erase (StringTrie ch d v) = Slice.SliceTrie (erase <$> ch) v.
Proof. done. Qed.

Lemma erase_value (t : stringTrie) : Slice.value (erase t) = value t.
Proof. by destruct t. Qed.

Lemma Get_erase (d : string) (f : nat) (t : stringTrie) (path : string)
    (ws : list string) :
  wf d t → segments_fuel f d path = Some ws →
  Get f t path = Some (Slice.Get zero (erase t) ws).
Proof.
  revert t path ws. induction f as [|f IH]; intros t path ws Ht; [done|].
  simpl. rewrite (wf_delimiter d t Ht). case_decide.
  { intros [= <-]. simpl. by rewrite erase_value. }
  destruct (Cut path d) as [[key rest] found].
  destruct (segments_fuel f d rest) as [ws'|] eqn:Hrest; [|done].
  intros [= <-]. simpl. rewrite erase_children, lookup_fmap.
  destruct (children t !! key) as [c|] eqn:Hc; simpl; [|done].
  apply IH; [|done]. by apply (wf_child d t c key).
Qed.

Lemma Put_erase (d : string) (f : nat) (t : stringTrie) (path : string)
    (val : V) (ws : list string) :
  wf d t → segments_fuel f d path = Some ws →
  ∃ t', Put f t path val = Some t' ∧
        erase t' = Slice.Put zero (erase t) ws val.
Proof.
  revert t path ws. induction f as [|f IH]; intros t path ws Ht; [done|].
  simpl. pose proof (wf_child_or_new d) as Hnew.
  rewrite (wf_delimiter d t Ht). case_decide.
  { intros [= <-]. eexists; split; [done|]. simpl.
    by rewrite erase_children. }
  destruct (Cut path d) as [[key rest] found].
  destruct (segments_fuel f d rest) as [ws'|] eqn:Hrest; [|done].
  intros [= <-]. specialize (Hnew key t Ht).
  rewrite (wf_delimiter d t Ht) in Hnew.
  destruct (IH _ rest ws' Hnew Hrest) as (c' & -> & Hc').
  eexists; split; [done|]. simpl.
  rewrite fmap_insert, Hc', erase_children, erase_value, lookup_fmap.
  destruct (children t !! key); simpl; [done|].
  by rewrite fmap_empty.
Qed.

Lemma Delete_erase (d : string) (f : nat) (t : stringTrie) (path : string)
    (ws : list string) :
  wf d t → path ≠ "" → segments_fuel f d path = Some ws →
  ws ≠ [] ∧
  ∃ t', Delete f t path = Some t' ∧
        erase t' = fst (Slice.Delete (erase t) ws).
Proof.
  revert t path ws. induction f as [|f IH]; intros t path ws Ht Hpath; [done|].
  simpl. rewrite (wf_delimiter d t Ht). case_decide; [done|].
  destruct (Cut path d) as [[key rest] found].
  destruct (segments_fuel f d rest) as [ws'|] eqn:Hrest; [|done].
  intros [= <-]. split; [done|]. case_decide as Hrest0.
  { subst rest. destruct f; [done|]. simpl in Hrest. simplify_eq.
    eexists; split; [done|]. simpl.
    by rewrite fmap_delete, erase_children, erase_value. }
  assert (ws' ≠ []) as Hws'.
  { intros ->. by apply segments_fuel_nil in Hrest. }
  destruct ws' as [|w ws'']; [done|].
  destruct (children t !! key) as [c|] eqn:Hc.
  - destruct (IH c rest (w :: ws'') (wf_child d t c key Ht Hc) Hrest0 Hrest)
      as (_ & c' & -> & Hc').
    eexists; split; [done|].
    rewrite SliceFacts.Delete_cons_cons, erase_StringTrie.
    rewrite erase_children, lookup_fmap, Hc.
    change (erase <$> Some c) with (Some (erase c)). cbv beta iota.
    rewrite fmap_insert, Hc', erase_value.
    by destruct (Slice.Delete (erase c) (w :: ws'')).
  - exists t. split; [done|].
    by rewrite SliceFacts.Delete_cons_cons, erase_children, lookup_fmap, Hc.
Qed.

(** Deleting a node that is missing, or below a missing node, changes
    nothing. *)
Lemma Delete_absent_segments (d : string) (f : nat) (t : stringTrie) (path : string)
    (ws p : list string) :
  wf d t → segments_fuel f d path = Some ws →
  p `prefix_of` ws → snd (Slice.Get zero (erase t) p) = false →
  Delete f t path = Some t.
Proof.
  revert t path ws p. induction f as [|f IH]; intros t path ws p Ht; [done|].
  simpl. rewrite (wf_delimiter d t Ht). case_decide as Hpath.
  { intros [= <-] Hp Hget. apply prefix_nil_inv in Hp. by subst p. }
  destruct (Cut path d) as [[key rest] found].
  destruct (segments_fuel f d rest) as [ws'|] eqn:Hrest; [|done].
  intros [= <-] Hp Hget. destruct p as [|a r]; [done|].
  apply prefix_cons_inv_1 in Hp as Heq. subst a.
  apply prefix_cons_inv_2 in Hp. simpl in Hget.
  rewrite erase_children, lookup_fmap in Hget.
  destruct (children t !! key) as [c|] eqn:Hc; simpl in Hget.
  - assert (rest ≠ "") as Hne.
    { intros ->. destruct f; [done|]. simpl in Hrest. simplify_eq.
      apply prefix_nil_inv in Hp. by subst r. }
    case_decide; [done|].
    rewrite (IH c rest ws' r (wf_child d t c key Ht Hc) Hrest Hp Hget).
    simpl. rewrite insert_id by done.
    rewrite <- (wf_delimiter d t Ht). by destruct t.
  - case_decide; [|done]. rewrite delete_id by done.
    rewrite <- (wf_delimiter d t Ht). by destruct t.
Qed.

(** *** The three methods in terms of the walked segments *)

Lemma Get_segments (d : string) (f : nat) (t : stringTrie) (path : string)
    (ws : list string) :
  wf d t → segments d path = Some ws → String.length path < f →
  Get f t path = Some (Slice.Get zero (erase t) ws).
Proof.
  intros Ht Hs Hf. apply (Get_erase d); [done|].
  by apply segments_segments_fuel.
Qed.

Lemma Put_segments (d : string) (f : nat) (t : stringTrie) (path : string)
    (val : V) (ws : list string) :
  wf d t → segments d path = Some ws → String.length path < f →
  ∃ t', Put f t path val = Some t' ∧ wf d t' ∧
        erase t' = Slice.Put zero (erase t) ws val.
Proof.
  intros Ht Hs Hf.
  destruct (Put_erase d f t path val ws Ht) as (t' & Hput & Ht').
  { by apply segments_segments_fuel. }
  exists t'. split_and!; [done| |done]. by eapply Put_wf.
Qed.

Lemma Delete_segments (d : string) (f : nat) (t : stringTrie) (path : string)
    (ws : list string) :
  wf d t → path ≠ "" → segments d path = Some ws → String.length path < f →
  ws ≠ [] ∧
  ∃ t', Delete f t path = Some t' ∧ wf d t' ∧
        erase t' = fst (Slice.Delete (erase t) ws).
Proof.
  intros Ht Hpath Hs Hf.
  destruct (Delete_erase d f t path ws Ht Hpath) as (Hne & t' & Hdel & Ht').
  { by apply segments_segments_fuel. }
  split; [done|]. exists t'. split_and!; [done| |done]. by eapply Delete_wf.
Qed.

(** *** More recursion depth never changes a result *)

Lemma Put_fuel_mono (f f' : nat) (t t' : stringTrie) (path : string) (val : V) :
  Put f t path val = Some t' → f ≤ f' → Put f' t path val = Some t'.
Proof.
  revert f' t t' path. induction f as [|f IH]; intros f' t t' path; [done|].
  intros Hput Hle. destruct f' as [|f']; [lia|]. simpl in *.
  case_decide; [done|].
  destruct (Cut path (delimiter t)) as [[key rest] found].
  destruct (Put f _ rest val) as [c'|] eqn:Hc; [|done].
  by rewrite (IH f' _ c' rest Hc) by lia.
Qed.

Lemma Get_fuel_mono (f f' : nat) (t : stringTrie) (path : string)
    (r : V * bool) :
  Get f t path = Some r → f ≤ f' → Get f' t path = Some r.
Proof.
  revert f' t path. induction f as [|f IH]; intros f' t path; [done|].
  intros Hget Hle. destruct f' as [|f']; [lia|]. simpl in *.
  case_decide; [done|].
  destruct (Cut path (delimiter t)) as [[key rest] found].
  destruct (children t !! key) as [c|]; [|done].
  apply IH; [done|lia].
Qed.

Lemma Delete_fuel_mono (f f' : nat) (t t' : stringTrie) (path : string) :
  Delete f t path = Some t' → f ≤ f' → Delete f' t path = Some t'.
Proof.
  revert f' t t' path. induction f as [|f IH]; intros f' t t' path; [done|].
  intros Hdel Hle. destruct f' as [|f']; [lia|]. simpl in *.
  destruct (Cut path (delimiter t)) as [[key rest] found].
  case_decide; [done|].
  destruct (children t !! key) as [c|]; [|done].
  destruct (Delete f c rest) as [c'|] eqn:Hc; [|done].
  by rewrite (IH f' c c' rest Hc) by lia.
Qed.

(** *** Consequences for reachable tries *)

Lemma Put_Get_same (d : string) (f : nat) (t : stringTrie) (path : string)
    (val : V) :
  wf d t → d ≠ "" ∨ path = "" → String.length path < f →
  ∃ t', Put f t path val = Some t' ∧ Get f t' path = Some (val, true).
Proof.
  intros Ht Hd Hf. apply segments_is_Some in Hd as [ws Hws].
  destruct (Put_segments d f t path val ws) as (t' & Hput & Ht' & He);
    [done..|].
  exists t'. split; [done|].
  rewrite (Get_segments d f t' path ws) by done.
  by rewrite He, SliceFacts.Get_Put_same.
Qed.

(** Two paths with the same segments name the same node. *)
Lemma Put_Put_same_segments (d : string) (f : nat) (t : stringTrie)
    (k1 k2 : string) (ws : list string) (v1 v2 : V) :
  wf d t → segments d k1 = Some ws → segments d k2 = Some ws →
  String.length k1 < f → String.length k2 < f →
  ∃ t1 t2, Put f t k1 v1 = Some t1 ∧ Put f t1 k2 v2 = Some t2 ∧
           Get f t2 k1 = Some (v2, true) ∧ Get f t2 k2 = Some (v2, true).
Proof.
  intros Ht H1 H2 Hf1 Hf2.
  destruct (Put_segments d f t k1 v1 ws) as (t1 & Hp1 & Ht1 & He1); [done..|].
  destruct (Put_segments d f t1 k2 v2 ws) as (t2 & Hp2 & Ht2 & He2); [done..|].
  exists t1, t2. split_and!; [done..| |].
  - rewrite (Get_segments d f t2 k1 ws) by done.
    by rewrite He2, SliceFacts.Get_Put_same.
  - rewrite (Get_segments d f t2 k2 ws) by done.
    by rewrite He2, SliceFacts.Get_Put_same.
Qed.

(** *** Tries with the same delimiter are determined by their tokens *)

Lemma erase_inj (d : string) (t t' : stringTrie) :
  wf d t → wf d t' → erase t = erase t' → t = t'.
Proof.
  intros Ht. revert t'. induction Ht as [ch v Hch IH].
  intros t' [ch' v' Hch']. rewrite !erase_StringTrie. intros [= Hmap ->].
  f_equal. apply map_eq. intros k.
  assert ((erase <$> ch) !! k = (erase <$> ch') !! k) as Hk by by rewrite Hmap.
  rewrite !lookup_fmap in Hk.
  destruct (ch !! k) as [c|] eqn:Hc, (ch' !! k) as [c'|] eqn:Hc';
    simpl in Hk; try done.
  f_equal. apply (IH k c Hc c'); [by apply (Hch' k)|congruence].
Qed.

(** A reachable trie is well formed, and childless when its delimiter is
    empty. *)
Lemma reachable_cases (d : string) (t : stringTrie) :
  reachable d t → wf d t ∧ (d = "" → children t = ∅).
Proof.
  intros Hr. split; [by apply reachable_wf|].
  intros ->. by apply reachable_empty_delimiter.
Qed.

Lemma Get_Put_intermediate (d : string) (f : nat) (t : stringTrie)
    (k k' : string) (p q : list string) (val x : V) :
  wf d t → segments d k = Some p → segments d k' = Some (p ++ q) → q ≠ [] →
  String.length k < f → String.length k' < f →
  Get f t k = Some (x, false) →
  ∃ t', Put f t k' val = Some t' ∧ Get f t' k = Some (zero, true).
Proof.
  intros Ht Hk Hk' Hq Hf Hf' Hget.
  rewrite (Get_segments d f t k p) in Hget by done.
  destruct (Put_segments d f t k' val (p ++ q)) as (t' & Hput & Ht' & He);
    [done..|].
  exists t'. split; [done|].
  rewrite (Get_segments d f t' k p), He, SliceFacts.Get_Put_prefix by done.
  destruct (Slice.Get zero (erase t) p) as [y b]. by simplify_eq.
Qed.

(** What [Delete] of a non-empty path does in a reachable state. *)
Lemma Delete_reachable (d : string) (f : nat) (t : stringTrie) (k : string) :
  reachable d t → k ≠ "" → String.length k < f →
  (d = "" ∧ children t = ∅ ∧ Delete f t k = Some t) ∨
  (d ≠ "" ∧ ∃ ws t', segments d k = Some ws ∧ ws ≠ [] ∧
                     Delete f t k = Some t' ∧ wf d t' ∧
                     erase t' = fst (Slice.Delete (erase t) ws)).
Proof.
  intros [Ht Hch]%reachable_cases Hk Hf.
  destruct (decide (d = "")) as [->|Hd].
  - left. split_and!; [done|by apply Hch|].
    destruct f; [lia|]. apply Delete_no_children. by apply Hch.
  - right. split; [done|].
    destruct (proj2 (segments_is_Some d k)) as [ws Hws]; [by left|].
    destruct (Delete_segments d f t k ws) as (Hne & t' & Hdel & Ht' & He);
      [done..|].
    by exists ws, t'.
Qed.

Lemma Get_Delete_subtree (d : string) (f : nat) (t : stringTrie) (k : string) :
  reachable d t → k ≠ "" → String.length k < f →
  ∃ t', Delete f t k = Some t' ∧
        ∀ (k' : string) (f' : nat),
          String.length k' < f' → k' = k ∨ segments_prefix d k k' →
          Get f' t' k' = Some (zero, false).
Proof.
  intros Hr Hk Hf.
  destruct (Delete_reachable d f t k Hr Hk Hf)
    as [(-> & Hch & Hdel)|(Hd & ws & t' & Hws & Hne & Hdel & Ht' & He)].
  - exists t. split; [done|]. intros k1 f1 Hf1 [->|(wa & wb & Ha & _)].
    + destruct f1; [lia|]. by apply Get_no_children.
    + apply mk_is_Some, segments_is_Some in Ha. by destruct Ha.
  - exists t'. split; [done|]. intros k1 f1 Hf1 Hpre.
    assert (∃ q, segments d k1 = Some (ws ++ q)) as [q Hq].
    { destruct Hpre as [->|(wa & wb & Ha & Hb & [q ->])].
      - exists []. by rewrite app_nil_r.
      - exists q. congruence. }
    rewrite (Get_segments d f1 t' k1 (ws ++ q)), He by done.
    by rewrite SliceFacts.Get_Delete_below.
Qed.

Lemma Delete_absent_reachable (d : string) (f f' : nat) (t : stringTrie)
    (k kp : string) (x : V) :
  reachable d t → k ≠ "" → String.length k < f →
  kp = k ∨ segments_prefix d kp k →
  String.length kp < f' → Get f' t kp = Some (x, false) →
  Delete f t k = Some t.
Proof.
  intros Hr Hk Hf Hpre Hf' Hget.
  destruct (Delete_reachable d f t k Hr Hk Hf)
    as [(-> & Hch & Hdel)|(Hd & ws & t' & Hws & Hne & _)]; [done|].
  pose proof (reachable_wf d t Hr) as Ht.
  assert (∃ p, segments d kp = Some p ∧ p `prefix_of` ws) as (p & Hp & Hpw).
  { destruct Hpre as [->|(wa & wb & Ha & Hb & Hab)].
    - by exists ws.
    - exists wa. split; [done|]. congruence. }
  rewrite (Get_segments d f' t kp p) in Hget by done.
  apply (Delete_absent_segments d f t k ws p); [done| |done|].
  - by apply segments_segments_fuel.
  - by destruct (Slice.Get zero (erase t) p); simplify_eq.
Qed.

Lemma Delete_twice (d : string) (f : nat) (t : stringTrie) (k : string) :
  reachable d t → k ≠ "" → String.length k < f →
  ∃ t', Delete f t k = Some t' ∧ Delete f t' k = Some t'.
Proof.
  intros Hr Hk Hf.
  destruct (Get_Delete_subtree d f t k Hr Hk Hf) as (t' & Hdel & Hget).
  exists t'. split; [done|].
  apply (Delete_absent_reachable d f f t' k k zero); [|done|done| |done|].
  - by eapply reachable_Delete.
  - by left.
  - apply Hget; [done|by left].
Qed.

Lemma Get_DeleteAll_ancestor (d : string) (f f' : nat) (t : stringTrie)
    (p : string) (wp : list string) (ks : list string) :
  wf d t → segments d p = Some wp → String.length p < f' →
  Forall (λ k, String.length k < f ∧
               ∃ q, q ≠ [] ∧ segments d k = Some (wp ++ q)) ks →
  ∃ t', DeleteAll f t ks = Some t' ∧ Get f' t' p = Get f' t p.
Proof.
  intros Ht Hp Hf' Hks. revert t Ht.
  induction Hks as [|k ks (Hf & q & Hq & Hk) _ IH]; intros t Ht.
  { by exists t. }
  assert (k ≠ "") as Hne.
  { intros ->. by destruct wp, q. }
  destruct (Delete_segments d f t k (wp ++ q)) as (_ & t1 & Hdel & Ht1 & He);
    [done..|].
  destruct (IH t1 Ht1) as (t' & Hall & Hget).
  exists t'. simpl. rewrite Hdel. simpl. split; [done|].
  rewrite Hget, (Get_segments d f' t1 p wp), (Get_segments d f' t p wp), He
    by done.
  rewrite SliceFacts.Get_Delete_frame; [done|by destruct wp, q|].
  by apply SliceFacts.app_not_prefix.
Qed.

(** In a reachable state [Get] returns at any depth above the length of the
    path. *)
Lemma Get_reachable (d : string) (f : nat) (t : stringTrie) (k : string) :
  reachable d t → String.length k < f → is_Some (Get f t k).
Proof.
  intros [Ht Hch]%reachable_cases Hf. destruct (decide (d = "")) as [->|Hd].
  - destruct f; [lia|]. destruct (decide (k = "")) as [->|Hk]; [done|].
    by rewrite Get_no_children by auto.
  - destruct (proj2 (segments_is_Some d k)) as [ws Hws]; [by left|].
    by rewrite (Get_segments d f t k ws).
Qed.

Lemma Get_Put_other (d : string) (f f' : nat) (t : stringTrie)
    (k k' : string) (val : V) :
  reachable d t → d ≠ "" ∨ k = "" → ¬ segments_prefix d k' k →
  String.length k < f → String.length k' < f' →
  ∃ t' r, Put f t k val = Some t' ∧
          Get f' t k' = Some r ∧ Get f' t' k' = Some r.
Proof.
  intros Hr Hd Hpre Hf Hf'.
  destruct (Get_reachable d f' t k' Hr Hf') as [r Hget].
  apply reachable_cases in Hr as [Ht Hch].
  destruct (decide (d = "")) as [->|Hd'].
  - destruct Hd as [? | ->]; [done|]. destruct f; [lia|].
    eexists _, r. split_and!; [done..|].
    destruct (decide (k' = "")) as [->|Hk'].
    { destruct Hpre. exists [], []. by split_and!. }
    destruct f'; [lia|]. rewrite Get_no_children in Hget by auto.
    rewrite Get_no_children; [done|by apply Hch|done].
  - destruct (proj2 (segments_is_Some d k)) as [ws Hws]; [by left|].
    destruct (proj2 (segments_is_Some d k')) as [ws' Hws']; [by left|].
    destruct (Put_segments d f t k val ws) as (t' & Hput & Ht' & He);
      [done..|].
    exists t', r. split_and!; [done..|].
    rewrite (Get_segments d f' t k' ws') in Hget by done.
    rewrite (Get_segments d f' t' k' ws'), He by done.
    rewrite SliceFacts.Get_Put_frame; [done|].
    intros Hp. apply Hpre. by exists ws', ws.
Qed.

(** [Put] returns only when the delimiter is not empty or the path is. *)
Lemma Put_returned (d : string) (f : nat) (t t' : stringTrie) (k : string)
    (val : V) :
  wf d t → Put f t k val = Some t' → d ≠ "" ∨ k = "".
Proof.
  intros Ht Hput. destruct (decide (d = "")) as [->|]; [|by left].
  right. destruct (decide (k = "")); [done|].
  by rewrite Put_empty_delimiter in Hput.
Qed.

Lemma Put_returns (d : string) (f : nat) (t : stringTrie) (k : string)
    (val : V) :
  wf d t → d ≠ "" ∨ k = "" → String.length k < f →
  is_Some (Put f t k val).
Proof.
  intros Ht Hd Hf. apply segments_is_Some in Hd as [ws Hws].
  destruct (Put_segments d f t k val ws) as (t' & -> & _); done.
Qed.

Lemma Get_Put_other_returned (d : string) (f f' : nat) (t t' : stringTrie)
    (k k' : string) (val : V) :
  reachable d t → ¬ segments_prefix d k' k → String.length k' < f' →
  Put f t k val = Some t' →
  ∃ r, Get f' t k' = Some r ∧ Get f' t' k' = Some r.
Proof.
  intros Hr Hpre Hf' Hput.
  pose proof (Put_returned d f t t' k val (reachable_wf d t Hr) Hput) as Hd.
  destruct (Get_Put_other d (f `max` S (String.length k)) f' t k k' val)
    as (t'' & r & Hput' & Hget & Hget'); [done..|lia|done|].
  apply Put_fuel_mono with (f' := f `max` S (String.length k)) in Hput; [|lia].
  assert (t'' = t') as -> by congruence. by exists r.
Qed.

Lemma Get_Delete_other (d : string) (f : nat) (t : stringTrie) (k : string) :
  reachable d t → k ≠ "" → String.length k < f →
  ∃ t', Delete f t k = Some t' ∧
        (∀ (k' : string) (f' : nat),
           String.length k' < f' → ¬ segments_prefix d k k' →
           ∃ r, Get f' t k' = Some r ∧ Get f' t' k' = Some r) ∧
        (∀ (k' : string) (f' : nat) (x : V),
           String.length k' < f' → Get f' t' k' = Some (x, true) →
           Get f' t k' = Some (x, true)).
Proof.
  intros Hr Hk Hf.
  destruct (Delete_reachable d f t k Hr Hk Hf)
    as [(-> & Hch & Hdel)|(Hd & ws & t' & Hws & Hne & Hdel & Ht' & He)].
  { exists t. split_and!; [done| |done].
    intros k' f' Hf' _. destruct (Get_reachable "" f' t k' Hr Hf') as [r Hr'].
    by exists r. }
  pose proof (reachable_wf d t Hr) as Ht.
  exists t'. split_and!; [done| |].
  - intros k' f' Hf' Hpre.
    destruct (proj2 (segments_is_Some d k')) as [ws' Hws']; [by left|].
    eexists. split; [by apply (Get_segments d f' t k' ws')|].
    rewrite (Get_segments d f' t' k' ws'), He by done.
    rewrite SliceFacts.Get_Delete_frame; [done..|].
    intros Hp. apply Hpre. by exists ws, ws'.
  - intros k' f' x Hf'.
    destruct (proj2 (segments_is_Some d k')) as [ws' Hws']; [by left|].
    rewrite (Get_segments d f' t' k' ws'), (Get_segments d f' t k' ws'), He
      by done.
    intros [= Hget]. rewrite <- Hget. f_equal. symmetry.
    apply SliceFacts.Get_Delete_found; [done|]. by rewrite Hget.
Qed.

(** *** How calls compose *)

Lemma Put_Put_overwrite (d : string) (f : nat) (t : stringTrie) (k : string)
    (v1 v2 : V) :
  wf d t → d ≠ "" ∨ k = "" → String.length k < f →
  ∃ t1 t2, Put f t k v1 = Some t1 ∧ Put f t1 k v2 = Some t2 ∧
           Put f t k v2 = Some t2.
Proof.
  intros Ht [ws Hws]%segments_is_Some Hf.
  destruct (Put_segments d f t k v1 ws) as (t1 & H1 & Ht1 & He1); [done..|].
  destruct (Put_segments d f t1 k v2 ws) as (t2 & H2 & Ht2 & He2); [done..|].
  destruct (Put_segments d f t k v2 ws) as (t2' & H2' & Ht2' & He2');
    [done..|].
  exists t1, t2. split_and!; [done..|]. rewrite H2'. f_equal.
  apply (erase_inj d); [done..|].
  by rewrite He2', He2, He1, SliceFacts.Put_Put_same.
Qed.

Lemma Put_Put_swap (d : string) (f : nat) (t : stringTrie) (k1 k2 : string)
    (w1 w2 : list string) (v1 v2 : V) :
  wf d t → segments d k1 = Some w1 → segments d k2 = Some w2 → w1 ≠ w2 →
  String.length k1 < f → String.length k2 < f →
  ∃ t1 t2 t12, Put f t k1 v1 = Some t1 ∧ Put f t k2 v2 = Some t2 ∧
               Put f t1 k2 v2 = Some t12 ∧ Put f t2 k1 v1 = Some t12.
Proof.
  intros Ht Hw1 Hw2 Hne Hf1 Hf2.
  destruct (Put_segments d f t k1 v1 w1) as (t1 & H1 & Ht1 & He1); [done..|].
  destruct (Put_segments d f t k2 v2 w2) as (t2 & H2 & Ht2 & He2); [done..|].
  destruct (Put_segments d f t1 k2 v2 w2) as (t12 & H12 & Ht12 & He12);
    [done..|].
  destruct (Put_segments d f t2 k1 v1 w1) as (t21 & H21 & Ht21 & He21);
    [done..|].
  exists t1, t2, t12. split_and!; [done..|]. rewrite H21. f_equal.
  apply (erase_inj d); [done..|].
  by rewrite He21, He12, He1, He2, SliceFacts.Put_Put_comm.
Qed.

Lemma Get_Put_kept_segments (d : string) (f f' : nat) (t : stringTrie)
    (k k' : string) (w w' : list string) (val x : V) :
  wf d t → segments d k = Some w → segments d k' = Some w' → w' ≠ w →
  String.length k < f → String.length k' < f' →
  Get f' t k' = Some (x, true) →
  ∃ t', Put f t k val = Some t' ∧ Get f' t' k' = Some (x, true).
Proof.
  intros Ht Hw Hw' Hne Hf Hf' Hget.
  destruct (Put_segments d f t k val w) as (t' & Hput & Ht' & He); [done..|].
  exists t'. split; [done|].
  rewrite (Get_segments d f' t k' w') in Hget by done.
  rewrite (Get_segments d f' t' k' w'), He by done.
  rewrite SliceFacts.Get_Put_kept; [done..|].
  by destruct (Slice.Get zero (erase t) w'); simplify_eq.
Qed.

Lemma Get_found_prefix_segments (d : string) (f f' : nat) (t : stringTrie)
    (k k' : string) (p q : list string) (x : V) :
  wf d t → segments d k = Some p → segments d k' = Some (p ++ q) →
  String.length k < f → String.length k' < f' →
  Get f' t k' = Some (x, true) → ∃ y, Get f t k = Some (y, true).
Proof.
  intros Ht Hk Hk' Hf Hf' Hget.
  rewrite (Get_segments d f' t k' (p ++ q)) in Hget by done.
  rewrite (Get_segments d f t k p) by done.
  pose proof (SliceFacts.Get_found_prefix zero (erase t) p q) as Hpre.
  destruct (Slice.Get zero (erase t) (p ++ q)) as [x' b]. simplify_eq.
  destruct (Slice.Get zero (erase t) p) as [y b]. simpl in Hpre.
  rewrite Hpre by done. by exists y.
Qed.

Lemma Delete_Put_undo_segments (d : string) (f : nat) (t : stringTrie)
    (kp k : string) (p : list string) (a : string) (val x y : V) :
  wf d t → segments d kp = Some p → segments d k = Some (p ++ [a]) →
  String.length kp < f → String.length k < f →
  Get f t kp = Some (x, true) → Get f t k = Some (y, false) →
  ∃ t', Put f t k val = Some t' ∧ Delete f t' k = Some t.
Proof.
  intros Ht Hkp Hk Hfp Hf Hgp Hgk.
  rewrite (Get_segments d f t kp p) in Hgp by done.
  rewrite (Get_segments d f t k (p ++ [a])) in Hgk by done.
  destruct (Put_segments d f t k val (p ++ [a])) as (t' & Hput & Ht' & He);
    [done..|].
  assert (k ≠ "") as Hne by (intros ->; by destruct p).
  destruct (Delete_segments d f t' k (p ++ [a]))
    as (_ & t'' & Hdel & Ht'' & He''); [done..|].
  exists t'. split; [done|]. rewrite Hdel. f_equal.
  apply (erase_inj d); [done..|].
  rewrite He'', He, SliceFacts.Delete_Put_undo; [done| |].
  - by destruct (Slice.Get zero (erase t) p); simplify_eq.
  - by destruct (Slice.Get zero (erase t) (p ++ [a])); simplify_eq.
Qed.

Lemma Delete_Delete_swap (d : string) (f : nat) (t : stringTrie)
    (k1 k2 : string) :
  reachable d t → k1 ≠ "" → k2 ≠ "" →
  String.length k1 < f → String.length k2 < f →
  ∃ t1 t2 t12, Delete f t k1 = Some t1 ∧ Delete f t k2 = Some t2 ∧
               Delete f t1 k2 = Some t12 ∧ Delete f t2 k1 = Some t12.
Proof.
  intros Hr Hk1 Hk2 Hf1 Hf2.
  destruct (Delete_reachable d f t k1 Hr Hk1 Hf1)
    as [(-> & Hch & Hd1)|(Hd & w1 & t1 & Hw1 & _ & Hd1 & Ht1 & He1)].
  { exists t, t, t. split_and!; try done;
      destruct f; try lia; by apply Delete_no_children. }
  pose proof (reachable_wf d t Hr) as Ht.
  destruct (proj2 (segments_is_Some d k2)) as [w2 Hw2]; [by left|].
  destruct (Delete_segments d f t k2 w2) as (Hn2 & t2 & Hd2 & Ht2 & He2);
    [done..|].
  destruct (Delete_segments d f t1 k2 w2) as (_ & t12 & Hd12 & Ht12 & He12);
    [done..|].
  destruct (Delete_segments d f t2 k1 w1) as (Hn1 & t21 & Hd21 & Ht21 & He21);
    [done..|].
  exists t1, t2, t12. split_and!; [done..|]. rewrite Hd21. f_equal.
  apply (erase_inj d); [done..|].
  by rewrite He21, He12, He1, He2, SliceFacts.Delete_Delete_comm.
Qed.

Lemma Get_Put_Delete_fresh (d : string) (f f' : nat) (t : stringTrie)
    (k k' : string) (w q : list string) (val : V) :
  wf d t → k ≠ "" → segments d k = Some w → segments d k' = Some (w ++ q) →
  q ≠ [] → String.length k < f → String.length k' < f' →
  ∃ t1 t2, Delete f t k = Some t1 ∧ Put f t1 k val = Some t2 ∧
           Get f t2 k = Some (val, true) ∧ Get f' t2 k' = Some (zero, false).
Proof.
  intros Ht Hk Hw Hw' Hq Hf Hf'.
  destruct (Delete_segments d f t k w) as (Hn & t1 & Hd1 & Ht1 & He1);
    [done..|].
  destruct (Put_segments d f t1 k val w) as (t2 & Hp2 & Ht2 & He2); [done..|].
  exists t1, t2. split_and!; [done..| |].
  - rewrite (Get_segments d f t2 k w), He2 by done.
    by rewrite SliceFacts.Get_Put_same.
  - rewrite (Get_segments d f' t2 k' (w ++ q)), He2, He1 by done.
    by rewrite SliceFacts.Get_Put_Delete_below.
Qed.

(** Keys with the same segments are interchangeable. *)
Lemma same_segments (d : string) (f : nat) (t : stringTrie) (k1 k2 : string)
    (w : list string) (val : V) :
  wf d t → segments d k1 = Some w → segments d k2 = Some w →
  String.length k1 < f → String.length k2 < f →
  Get f t k1 = Get f t k2 ∧ Put f t k1 val = Put f t k2 val ∧
  (k1 ≠ "" → k2 ≠ "" → Delete f t k1 = Delete f t k2).
Proof.
  intros Ht H1 H2 Hf1 Hf2. split_and!.
  - by rewrite (Get_segments d f t k1 w), (Get_segments d f t k2 w).
  - destruct (Put_segments d f t k1 val w) as (t1 & -> & Ht1 & He1); [done..|].
    destruct (Put_segments d f t k2 val w) as (t2 & -> & Ht2 & He2); [done..|].
    f_equal. apply (erase_inj d); [done..|]. congruence.
  - intros Hk1 Hk2.
    destruct (Delete_segments d f t k1 w) as (_ & t1 & -> & Ht1 & He1);
      [done..|].
    destruct (Delete_segments d f t k2 w) as (_ & t2 & -> & Ht2 & He2);
      [done..|].
    f_equal. apply (erase_inj d); [done..|]. congruence.
Qed.

(** *** Segments and keys *)

(** No segment contains the (non-empty) delimiter. *)
Lemma segments_fuel_no_delimiter (f : nat) (d k : string) (ws : list string) :
  d ≠ "" → segments_fuel f d k = Some ws →
  Forall (λ w, Index w d = None) ws.
Proof.
  intros Hd. revert k ws. induction f as [|f IH]; intros k ws; [done|].
  simpl. case_decide; [by intros [= <-]|].
  destruct (Cut k d) as [[key rest] found] eqn:Hcut.
  destruct (segments_fuel f d rest) as [ws'|] eqn:Hrest; [|done].
  intros [= <-]. constructor; [by eapply Cut_head|by eapply IH].
Qed.

(** A key is its segments joined by the delimiter, up to one trailing
    delimiter. *)
Lemma segments_fuel_Join (f : nat) (d k : string) (ws : list string) :
  segments_fuel f d k = Some ws →
  k = Join ws d ∨ (ws ≠ [] ∧ k = Join ws d +:+ d).
Proof.
  revert k ws. induction f as [|f IH]; intros k ws; [done|].
  simpl. case_decide as Hk; [intros [= <-]; by left|].
  destruct (Cut k d) as [[key rest] found] eqn:Hcut.
  destruct (segments_fuel f d rest) as [ws'|] eqn:Hrest; [|done].
  intros [= <-]. destruct found.
  - apply Cut_found in Hcut. destruct ws' as [|w ws''].
    + apply segments_fuel_nil in Hrest as ->. right. split; [done|].
      simpl. by rewrite append_empty_r in Hcut.
    + destruct (IH rest (w :: ws'') Hrest) as [Hr|[_ Hr]].
      * left. by rewrite Hcut, Hr.
      * right. split; [done|].
        rewrite Hcut, Hr.
        change (Join (key :: w :: ws'') d)
          with (key +:+ d +:+ Join (w :: ws'') d).
        by rewrite !append_assoc.
  - apply Cut_not_found in Hcut as (-> & -> & _).
    destruct f; [done|]. simpl in Hrest. simplify_eq. by left.
Qed.

(** [Delete] of the empty key is [Delete] of the key that consists of the
    delimiter alone. *)
Lemma Delete_empty_delimiter_key (f : nat) (t : stringTrie) :
  Delete (S f) t "" = Delete (S f) t (delimiter t).
Proof.
  simpl. pose proof (Cut_empty (delimiter t)) as H1.
  pose proof (Cut_self (delimiter t)) as H2.
  destruct (Cut "" (delimiter t)) as [[k1 r1] f1].
  destruct (Cut (delimiter t) (delimiter t)) as [[k2 r2] f2].
  simpl in *. by simplify_eq.
Qed.

(** [Delete] returns in every reachable state. *)
Lemma Delete_reachable_returns (d : string) (f : nat) (t : stringTrie)
    (k : string) :
  reachable d t → String.length k < f → is_Some (Delete f t k).
Proof.
  intros Hr Hf. destruct (decide (k = "")) as [->|Hk].
  - destruct f; [lia|]. simpl. pose proof (Cut_empty (delimiter t)) as Hcut.
    destruct (Cut "" (delimiter t)) as [[key rest] found].
    simpl in Hcut. simplify_eq. by case_decide.
  - destruct (Delete_reachable d f t k Hr Hk Hf)
      as [(_ & _ & ->)|(_ & ws & t' & _ & _ & -> & _)]; done.
Qed.

End Facts.
End StrFacts.

(** * The tests of the package, replayed on the embedding *)

(** [TestSliceSimple]: key [[1, 2, 3]], value ["baz"]. *)
Example TestSliceSimple :
  let tr := Slice.NewSlice "" in
  let tr := Slice.Put "" tr [1; 2; 3] "baz" in
  Slice.Get "" tr [1; 2; 3] = ("baz", true) ∧
  let '(tr, c) := Slice.Delete tr [1; 2; 3] in
  c = Returned ∧ snd (Slice.Get "" tr [1; 2; 3]) = false.
Proof. by vm_compute. Qed.

(** [TestStringSimple]: key ["foo/bar"], value ["baz"], delimiter ["/"]. *)
Example TestStringSimple :
  ∃ tr tr', Str.Put "" 8 (Str.New "" "/") "foo/bar" "baz" = Some tr ∧
            Str.Get "" 8 tr "foo/bar" = Some ("baz", true) ∧
            Str.Delete 8 tr "foo/bar" = Some tr' ∧
            Str.Get "" 8 tr' "foo/bar" = Some ("", false).
Proof. eexists _, _. split_and!; by vm_compute. Qed.

(** [TestTrie_EmptyFinalKey]: key ["foo/"], value ["baz"]. *)
Example TestTrie_EmptyFinalKey :
  ∃ tr tr', Str.Put "" 5 (Str.New "" "/") "foo/" "baz" = Some tr ∧
            Str.Get "" 5 tr "foo/" = Some ("baz", true) ∧
            Str.Delete 5 tr "foo/" = Some tr' ∧
            Str.Get "" 5 tr' "foo/" = Some ("", false).
Proof. eexists _, _. split_and!; by vm_compute. Qed.

(** * The properties of the specification *)

(** C1. The round trip, [Put(k, v)] and then [Get(k)] returning
    [(v, true)], does not hold on the code for a trie created with the
    empty delimiter: on [New("")] the call [Put("a", 1)] returns at no
    recursion depth ([Cut] consumes nothing of the path), so no [Get] can
    follow it and return [(1, true)]. *)
Lemma Put_then_Get_empty_delimiter :
  ¬ ∃ (fuel fuel' : nat) t',
      Str.Put 0 fuel (Str.New 0 "") "a" 1 = Some t' ∧
      Str.Get 0 fuel' t' "a" = Some (1, true).
Proof.
  intros (fuel & fuel' & t' & Hput & _).
  rewrite StrFacts.Put_empty_delimiter in Hput; [done| |done].
  apply StrFacts.wf_newStringTrie.
Qed.

(** C2 (as amended). With delimiter ["/"] the keys ["foo/"] and ["foo"] are
    walked through the same single segment ["foo"] and address the same
    node: after [Put("foo/", v1)] and [Put("foo", v2)] both [Get("foo/")]
    and [Get("foo")] return [(v2, true)]. *)
Theorem trailing_delimiter_same_node {V : Type} (zero : V)
    (t : Str.stringTrie) (v1 v2 : V) (fuel : nat) :
  Str.reachable zero "/" t → 4 < fuel →
  Str.segments "/" "foo/" = Some ["foo"] ∧
  Str.segments "/" "foo" = Some ["foo"] ∧
  ∃ t1 t2, Str.Put zero fuel t "foo/" v1 = Some t1 ∧
           Str.Put zero fuel t1 "foo" v2 = Some t2 ∧
           Str.Get zero fuel t2 "foo/" = Some (v2, true) ∧
           Str.Get zero fuel t2 "foo" = Some (v2, true).
Proof.
  intros Hr Hf. split_and!; [done..|].
  apply (StrFacts.Put_Put_same_segments zero "/" fuel t "foo/" "foo" ["foo"]);
    [by apply (StrFacts.reachable_wf zero)|done|done|simpl; lia|simpl; lia].
Qed.

Lemma trailing_delimiter_same_node_witness :
  Str.segments "/" "foo/" = Some ["foo"] ∧
  Str.segments "/" "foo" = Some ["foo"] ∧
  ∃ t1 t2, Str.Put 0 5 (Str.New 0 "/") "foo/" 1 = Some t1 ∧
           Str.Put 0 5 t1 "foo" 2 = Some t2 ∧
           Str.Get 0 5 t2 "foo/" = Some (2, true) ∧
           Str.Get 0 5 t2 "foo" = Some (2, true).
Proof.
  apply (trailing_delimiter_same_node 0 (Str.New 0 "/") 1 2 5).
  - apply Str.reachable_New.
  - lia.
Defined.

(** C2 as stated fails: after [Put("foo/", 1)] and [Put("foo", 2)] on a
    fresh trie, [Get("foo/")] does not return [(1, true)]. *)
Lemma trailing_delimiter_overwritten :
  ¬ ∃ (f1 f2 f3 f4 : nat) t1 t2,
      Str.Put 0 f1 (Str.New 0 "/") "foo/" 1 = Some t1 ∧
      Str.Put 0 f2 t1 "foo" 2 = Some t2 ∧
      Str.Get 0 f3 t2 "foo/" = Some (1, true) ∧
      Str.Get 0 f4 t2 "foo" = Some (2, true).
Proof.
  intros (f1 & f2 & f3 & f4 & t1 & t2 & H1 & H2 & H3 & _).
  set (f := f1 `max` (f2 `max` (f3 `max` 5))).
  destruct (StrFacts.Put_Put_same_segments 0 "/" f (Str.New 0 "/") "foo/" "foo"
              ["foo"] 1 2) as (t1' & t2' & H1' & H2' & H3' & _);
    [apply StrFacts.wf_newStringTrie|done|done|simpl; lia|simpl; lia|].
  apply StrFacts.Put_fuel_mono with (f' := f) in H1; [|lia].
  assert (t1' = t1) as -> by congruence.
  apply StrFacts.Put_fuel_mono with (f' := f) in H2; [|lia].
  assert (t2' = t2) as -> by congruence.
  apply StrFacts.Get_fuel_mono with (f' := f) in H3; [|lia].
  congruence.
Qed.

(** C3. On the token-sequence trie [Delete] with an empty path panics, and
    the trie is in the state it was in before the call. *)
Theorem Delete_empty_path_panics `{Countable K} {V : Type}
    (t : Slice.sliceTrie (K:=K) (V:=V)) :
  Slice.Delete t [] = (t, Panicked "trie: cannot delete self").
Proof. apply SliceFacts.Delete_nil. Qed.

(** C4. On the delimited-string trie [Delete("")] returns normally: cutting
    [""] gives the head [""] and the remainder [""], so the root's child
    under the empty segment is removed, and with it every key whose first
    segment is the empty one. *)
Theorem Delete_empty_string {V : Type} (zero : V) (t : Str.stringTrie)
    (fuel : nat) :
  fst (Str.Cut "" (Str.delimiter t)) = ("", "") ∧
  ∃ t', Str.Delete (S fuel) t "" = Some t' ∧
        t' = Str.StringTrie (delete "" (Str.children t))
                            (Str.delimiter t) (Str.value t) ∧
        Str.children t' !! "" = None ∧
        ∀ (k : string) (fuel' : nat),
          k ≠ "" → fst (fst (Str.Cut k (Str.delimiter t))) = "" →
          Str.Get zero (S fuel') t' k = Some (zero, false).
Proof.
  split; [apply StrFacts.Cut_empty|].
  eexists. split_and!; [|done| |].
  - simpl. pose proof (StrFacts.Cut_empty (Str.delimiter t)) as Hcut.
    destruct (Str.Cut "" (Str.delimiter t)) as [[key rest] found].
    simpl in Hcut. simplify_eq. by case_decide.
  - simpl. apply lookup_delete_eq.
  - intros k fuel' Hk Hcut. simpl. case_decide; [done|].
    destruct (Str.Cut k (Str.delimiter t)) as [[key rest] found].
    simpl in Hcut. subst key. by rewrite lookup_delete_eq.
Qed.

Lemma Delete_empty_string_witness :
  let t := Str.StringTrie
             {[ "" := Str.StringTrie {[ "x" := Str.StringTrie ∅ "/" 5 ]} "/" 0 ]}
             "/" 0 in
  Str.Get 0 3 t "/x" = Some (5, true) ∧
  ∃ t', Str.Delete 1 t "" = Some t' ∧
        Str.Get 0 3 t' "/x" = Some (0, false).
Proof.
  intros t. split; [done|].
  destruct (Delete_empty_string 0 t 0) as (_ & t' & Hdel & _ & _ & Hget).
  exists t'. split; [done|].
  apply Hget; [discriminate | reflexivity].
Defined.

(** C5. A node that exists only because a longer key was [Put] is found,
    with the zero value of [V]: if [Get(k)] did not find a node, then after
    a [Put] of a key whose tokens (segments) properly extend those of [k],
    [Get(k)] returns [(zero, true)]; for instance after [Put("a/b", v)] on
    a fresh string trie [Get("a")] returns [(zero, true)].  With an empty
    remaining path [Get] returns the value slot of the node it is called
    on, with [found = true], whatever that node is. *)
Theorem Get_intermediate_node `{Countable K} {V : Type} (zero : V) :
  (∀ (t : Slice.sliceTrie) (p q : list K) (v : V),
     q ≠ [] → snd (Slice.Get zero t p) = false →
     Slice.Get zero (Slice.Put zero t (p ++ q) v) p = (zero, true)) ∧
  (∀ t : Slice.sliceTrie (K:=K),
     Slice.Get zero t [] = (Slice.value t, true)) ∧
  (∀ (d : string) (t : Str.stringTrie) (k k' : string) (p q : list string)
     (v x : V) (fuel : nat),
     Str.reachable zero d t →
     Str.segments d k = Some p → Str.segments d k' = Some (p ++ q) → q ≠ [] →
     String.length k < fuel → String.length k' < fuel →
     Str.Get zero fuel t k = Some (x, false) →
     ∃ t', Str.Put zero fuel t k' v = Some t' ∧
           Str.Get zero fuel t' k = Some (zero, true)) ∧
  (∀ (v : V) (fuel : nat),
     3 < fuel →
     ∃ t', Str.Put zero fuel (Str.New zero "/") "a/b" v = Some t' ∧
           Str.Get zero fuel t' "a" = Some (zero, true)) ∧
  (∀ (t : Str.stringTrie) (fuel : nat),
     Str.Get zero (S fuel) t "" = Some (Str.value t, true)).
Proof.
  split_and!.
  - intros t p q v Hq Hget. rewrite SliceFacts.Get_Put_prefix by done.
    by rewrite Hget.
  - done.
  - intros d t k k' p q v x fuel Hr. apply StrFacts.Get_Put_intermediate.
    by apply (StrFacts.reachable_wf zero).
  - intros v fuel Hf.
    apply (StrFacts.Get_Put_intermediate zero "/" fuel _ "a" "a/b" ["a"] ["b"]
             v zero); [apply StrFacts.wf_newStringTrie|done..|simpl; lia|simpl; lia|].
    destruct fuel; [lia|]. by apply StrFacts.Get_no_children.
  - done.
Qed.

Lemma Get_intermediate_node_witness :
  Slice.Get 0 (Slice.Put 0 (Slice.NewSlice 0) [1; 2] 7) [1] = (0, true) ∧
  (∃ t', Str.Put 0 4 (Str.New 0 "/") "a/b" 7 = Some t' ∧
         Str.Get 0 4 t' "a" = Some (0, true)) ∧
  (∃ t', Str.Put 0 5 (Str.New 0 "/") "a/b" 8 = Some t' ∧
         Str.Get 0 5 t' "a" = Some (0, true)).
Proof.
  destruct (Get_intermediate_node (K:=nat) 0) as (Hslice & _ & Hstr & Hex & _).
  split_and!.
  - apply (Hslice (Slice.NewSlice 0) [1] [2] 7); [discriminate|reflexivity].
  - apply (Hstr "/" (Str.New 0 "/") "a" "a/b" ["a"] ["b"] 7 0 4).
    + apply Str.reachable_New.
    + reflexivity.
    + reflexivity.
    + discriminate.
    + simpl; lia.
    + simpl; lia.
    + reflexivity.
  - apply (Hex 8 5). lia.
Defined.

(** C6. [Delete(k)] with a non-empty [k] returns, and afterwards neither
    [k] nor any key whose tokens (segments) extend those of [k] is found. *)
Theorem Delete_removes_subtree `{Countable K} {V : Type} (zero : V) :
  (∀ (t : Slice.sliceTrie) (k : list K),
     k ≠ [] →
     snd (Slice.Delete t k) = Returned ∧
     ∀ q, Slice.Get zero (fst (Slice.Delete t k)) (k ++ q) = (zero, false)) ∧
  (∀ (d : string) (t : Str.stringTrie) (k : string) (fuel : nat),
     Str.reachable zero d t → k ≠ "" → String.length k < fuel →
     ∃ t', Str.Delete fuel t k = Some t' ∧
           ∀ (k' : string) (fuel' : nat),
             String.length k' < fuel' →
             k' = k ∨ Str.segments_prefix d k k' →
             Str.Get zero fuel' t' k' = Some (zero, false)).
Proof.
  split.
  - intros t k Hk. split; [by apply SliceFacts.Delete_returns|].
    intros q. by apply SliceFacts.Get_Delete_below.
  - intros d t k fuel. by apply StrFacts.Get_Delete_subtree.
Qed.

Lemma Delete_removes_subtree_witness :
  (let t := Slice.Put 0 (Slice.NewSlice 0) [1; 2; 3] 5 in
   snd (Slice.Delete t [1; 2]) = Returned ∧
   Slice.Get 0 (fst (Slice.Delete t [1; 2])) [1; 2; 3] = (0, false)) ∧
  ∃ t1 t2, Str.Put 0 6 (Str.New 0 "/") "a/b/c" 1 = Some t1 ∧
           Str.Delete 6 t1 "a/b" = Some t2 ∧
           Str.Get 0 6 t2 "a/b" = Some (0, false) ∧
           Str.Get 0 6 t2 "a/b/c" = Some (0, false).
Proof.
  destruct (Delete_removes_subtree (K:=nat) 0) as [Hslice Hstr]. split.
  - intros t. destruct (Hslice t [1; 2]) as [Hret Hget]; [discriminate|].
    split; [exact Hret|]. apply (Hget [3]).
  - destruct (Str.Put 0 6 (Str.New 0 "/") "a/b/c" 1) as [t1|] eqn:Hput;
      [|vm_compute in Hput; discriminate].
    assert (Str.reachable 0 "/" t1) as Hr.
    { eapply Str.reachable_Put; [apply Str.reachable_New|exact Hput]. }
    destruct (Hstr "/" t1 "a/b" 6 Hr) as (t2 & Hdel & Hget).
    + discriminate.
    + simpl; lia.
    + exists t1, t2. split_and!; [reflexivity|exact Hdel| |].
      * apply Hget; [simpl; lia|by left].
      * apply Hget; [simpl; lia|]. right.
        exists ["a"; "b"], ["a"; "b"; "c"]. split_and!; [reflexivity..|].
        by exists ["c"].
Defined.

(** C7. [Delete] of a non-empty key is a no-op when the key, or a prefix
    of its tokens (segments), has no node: the call returns and the trie
    is as it was.  In particular deleting the same key a second time
    changes nothing. *)
Theorem Delete_absent_noop `{Countable K} {V : Type} (zero : V) :
  (∀ (t : Slice.sliceTrie) (k p : list K),
     k ≠ [] → p `prefix_of` k → snd (Slice.Get zero t p) = false →
     Slice.Delete t k = (t, Returned)) ∧
  (∀ (t : Slice.sliceTrie (V:=V)) (k : list K),
     k ≠ [] →
     Slice.Delete (fst (Slice.Delete t k)) k =
       (fst (Slice.Delete t k), Returned)) ∧
  (∀ (d : string) (t : Str.stringTrie) (k kp : string) (x : V)
     (fuel fuel' : nat),
     Str.reachable zero d t → k ≠ "" → String.length k < fuel →
     kp = k ∨ Str.segments_prefix d kp k →
     String.length kp < fuel' → Str.Get zero fuel' t kp = Some (x, false) →
     Str.Delete fuel t k = Some t) ∧
  (∀ (d : string) (t : Str.stringTrie) (k : string) (fuel : nat),
     Str.reachable zero d t → k ≠ "" → String.length k < fuel →
     ∃ t', Str.Delete fuel t k = Some t' ∧ Str.Delete fuel t' k = Some t').
Proof.
  split_and!.
  - intros t k p. apply SliceFacts.Delete_absent.
  - intros t k Hk. apply (SliceFacts.Delete_absent zero _ k k); [done..|].
    rewrite <- (app_nil_r k) at 2. by rewrite SliceFacts.Get_Delete_below.
  - intros d t k kp x fuel fuel'. apply StrFacts.Delete_absent_reachable.
  - intros d t k fuel. apply StrFacts.Delete_twice.
Qed.

Lemma Delete_absent_noop_witness :
  (let t := Slice.NewSlice 0 in Slice.Delete t [1; 2] = (t, Returned)) ∧
  (let t := fst (Slice.Delete (Slice.Put 0 (Slice.NewSlice 0) [1] 5) [1]) in
   Slice.Delete t [1] = (t, Returned)) ∧
  let t := Str.StringTrie {[ "a" := Str.StringTrie ∅ "/" 1 ]} "/" 0 in
  Str.reachable 0 "/" t ∧ Str.Delete 6 t "b/c/d" = Some t ∧
  ∃ t', Str.Delete 2 t "a" = Some t' ∧ Str.Delete 2 t' "a" = Some t'.
Proof.
  destruct (Delete_absent_noop (K:=nat) 0) as (Hslice & Hagain & Hstr & Hstr2).
  split_and!.
  - intros t. apply (Hslice t [1; 2] [1]); [discriminate| |reflexivity].
    by exists [2].
  - apply (Hagain (Slice.Put 0 (Slice.NewSlice 0) [1] 5) [1]). discriminate.
  - intros t.
    assert (Str.reachable 0 "/" t) as Hr.
    { apply (Str.reachable_Put 0 "/" 2 (Str.New 0 "/") "a" 1);
        [apply Str.reachable_New|reflexivity]. }
    split_and!; [exact Hr| |].
    + apply (Hstr "/" t "b/c/d" "b" 0 6 2 Hr).
      * discriminate.
      * simpl; lia.
      * right. exists ["b"], ["b"; "c"; "d"]. split_and!; [reflexivity..|].
        by exists ["c"; "d"].
      * simpl; lia.
      * reflexivity.
    + apply (Hstr2 "/" t "a" 2 Hr); [discriminate|simpl; lia].
Defined.

(** C8. [Delete] never prunes an ancestor: after deleting any number of
    keys whose tokens (segments) properly extend those of [p], every one of
    the calls has returned and [Get(p)] returns what it returned before, so
    a node that was found is still found, with its value. *)
Theorem Delete_keeps_ancestors `{Countable K} {V : Type} (zero : V) :
  (∀ (t : Slice.sliceTrie) (p : list K) (ks : list (list K)),
     Forall (λ k, ∃ q, q ≠ [] ∧ k = p ++ q) ks →
     snd (Slice.DeleteAll t ks) = Returned ∧
     Slice.Get zero (fst (Slice.DeleteAll t ks)) p = Slice.Get zero t p) ∧
  (∀ (d : string) (t : Str.stringTrie) (p : string) (wp : list string)
     (ks : list string) (fuel fuel' : nat),
     Str.reachable zero d t →
     Str.segments d p = Some wp → String.length p < fuel' →
     Forall (λ k, String.length k < fuel ∧
                  ∃ q, q ≠ [] ∧ Str.segments d k = Some (wp ++ q)) ks →
     ∃ t', Str.DeleteAll fuel t ks = Some t' ∧
           Str.Get zero fuel' t' p = Str.Get zero fuel' t p).
Proof.
  split.
  - intros t p ks. apply SliceFacts.Get_DeleteAll_above.
  - intros d t p wp ks fuel fuel' Hr. apply StrFacts.Get_DeleteAll_ancestor.
    by apply (StrFacts.reachable_wf zero).
Qed.

Lemma Delete_keeps_ancestors_witness :
  (let t := Slice.Put 0 (Slice.Put 0 (Slice.NewSlice 0) [1; 2] 5) [1; 3] 6 in
   let t' := fst (Slice.DeleteAll t [[1; 2]; [1; 3]]) in
   Slice.Get 0 t' [1] = (0, true) ∧
   Slice.Get 0 t' [1; 2] = (0, false) ∧ Slice.Get 0 t' [1; 3] = (0, false)) ∧
  let t := Str.StringTrie
             {[ "a" := Str.StringTrie {[ "b" := Str.StringTrie ∅ "/" 1 ]}
                                      "/" 0 ]} "/" 0 in
  ∃ t', Str.DeleteAll 4 t ["a/b"] = Some t' ∧
        Str.Get 0 4 t' "a/b" = Some (0, false) ∧
        Str.Get 0 4 t' "a" = Some (0, true).
Proof.
  destruct (Delete_keeps_ancestors (K:=nat) 0) as [Hslice Hstr]. split.
  - intros t t'. split; [|by vm_compute].
    destruct (Hslice t [1] [[1; 2]; [1; 3]]) as [_ Hget].
    + repeat constructor.
      * exists [2]. by split.
      * exists [3]. by split.
    + unfold t'. rewrite Hget. reflexivity.
  - intros t.
    assert (Str.reachable 0 "/" t) as Hr.
    { apply (Str.reachable_Put 0 "/" 4 (Str.New 0 "/") "a/b" 1);
        [apply Str.reachable_New|reflexivity]. }
    destruct (Hstr "/" t "a" ["a"] ["a/b"] 4 4 Hr) as (t' & Hall & Hget).
    + reflexivity.
    + simpl; lia.
    + apply Forall_singleton. split; [simpl; lia|].
      exists ["b"]. by split.
    + exists t'. split; [exact Hall|]. rewrite Hget. split; [|reflexivity].
      vm_compute in Hall. injection Hall as <-. reflexivity.
Defined.

(** C9. Frame property of [Put]: whenever [Put(k, v)] has returned,
    [Get(k')] returns the same pair as before it, for every [k'] whose
    tokens (segments) are not an initial part of, nor equal to, those
    walked for [k].  On the token-sequence trie [Put] always returns; on
    the string trie it returns when the delimiter is not empty or [k] is
    empty. *)
Theorem Put_frame `{Countable K} {V : Type} (zero : V) :
  (∀ (t : Slice.sliceTrie) (k k' : list K) (v : V),
     ¬ k' `prefix_of` k →
     Slice.Get zero (Slice.Put zero t k v) k' = Slice.Get zero t k') ∧
  (∀ (d : string) (t t' : Str.stringTrie) (k k' : string) (v : V)
     (fuel fuel' : nat),
     Str.reachable zero d t → ¬ Str.segments_prefix d k' k →
     String.length k' < fuel' →
     Str.Put zero fuel t k v = Some t' →
     ∃ r, Str.Get zero fuel' t k' = Some r ∧
          Str.Get zero fuel' t' k' = Some r) ∧
  (∀ (d : string) (t : Str.stringTrie) (k : string) (v : V) (fuel : nat),
     Str.reachable zero d t → d ≠ "" ∨ k = "" → String.length k < fuel →
     is_Some (Str.Put zero fuel t k v)).
Proof.
  split_and!.
  - intros t k k' v. apply SliceFacts.Get_Put_frame.
  - intros d t t' k k' v fuel fuel'. apply StrFacts.Get_Put_other_returned.
  - intros d t k v fuel Hr. apply (StrFacts.Put_returns zero d).
    by apply (StrFacts.reachable_wf zero).
Qed.

Lemma Put_frame_witness :
  (let t := Slice.Put 0 (Slice.NewSlice 0) [1; 3] 6 in
   Slice.Get 0 (Slice.Put 0 t [1; 2] 5) [1; 3] = (6, true)) ∧
  let t := Str.StringTrie {[ "a" := Str.StringTrie ∅ "/" 1 ]} "/" 0 in
  ∃ t', Str.Put 0 4 t "a/b" 2 = Some t' ∧
        Str.Get 0 4 t "a/c" = Some (0, false) ∧
        Str.Get 0 4 t' "a/c" = Some (0, false).
Proof.
  destruct (Put_frame (K:=nat) 0) as (Hslice & Hframe & Hret). split.
  - intros t. rewrite Hslice; [reflexivity|]. intros [q Hq]. discriminate.
  - intros t.
    assert (Str.reachable 0 "/" t) as Hr.
    { apply (Str.reachable_Put 0 "/" 2 (Str.New 0 "/") "a" 1);
        [apply Str.reachable_New|reflexivity]. }
    destruct (Hret "/" t "a/b" 2 4 Hr) as [t' Hput].
    + left. discriminate.
    + simpl; lia.
    + exists t'. split; [exact Hput|].
      destruct (Hframe "/" t t' "a/b" "a/c" 2 4 4 Hr) as (r & Hget & Hget').
      * intros (wa & wb & Ha & Hb & Hpre). vm_compute in Ha, Hb.
        injection Ha as <-. injection Hb as <-.
        destruct Hpre as [q Hq]. discriminate.
      * simpl; lia.
      * exact Hput.
      * assert (r = (0, false)) as -> by (vm_compute in Hget; congruence).
        split; [reflexivity|exact Hget'].
Defined.

(** C10. Frame property of [Delete]: [Delete(k)] with a non-empty [k]
    returns, [Get(k')] returns the same pair before and after it for every
    [k'] whose tokens (segments) do not begin with those walked for [k],
    and whatever is found afterwards was found before with the same value:
    no value slot is modified. *)
Theorem Delete_frame `{Countable K} {V : Type} (zero : V) :
  (∀ (t : Slice.sliceTrie) (k k' : list K),
     k ≠ [] →
     snd (Slice.Delete t k) = Returned ∧
     (¬ k `prefix_of` k' →
      Slice.Get zero (fst (Slice.Delete t k)) k' = Slice.Get zero t k') ∧
     (snd (Slice.Get zero (fst (Slice.Delete t k)) k') = true →
      Slice.Get zero (fst (Slice.Delete t k)) k' = Slice.Get zero t k')) ∧
  (∀ (d : string) (t : Str.stringTrie) (k : string) (fuel : nat),
     Str.reachable zero d t → k ≠ "" → String.length k < fuel →
     ∃ t', Str.Delete fuel t k = Some t' ∧
           (∀ (k' : string) (fuel' : nat),
              String.length k' < fuel' → ¬ Str.segments_prefix d k k' →
              ∃ r, Str.Get zero fuel' t k' = Some r ∧
                   Str.Get zero fuel' t' k' = Some r) ∧
           (∀ (k' : string) (fuel' : nat) (x : V),
              String.length k' < fuel' →
              Str.Get zero fuel' t' k' = Some (x, true) →
              Str.Get zero fuel' t k' = Some (x, true))).
Proof.
  split.
  - intros t k k' Hk. split_and!.
    + by apply SliceFacts.Delete_returns.
    + by apply SliceFacts.Get_Delete_frame.
    + by apply SliceFacts.Get_Delete_found.
  - intros d t k fuel. apply StrFacts.Get_Delete_other.
Qed.

Lemma Delete_frame_witness :
  (let t := Slice.Put 0 (Slice.Put 0 (Slice.NewSlice 0) [1; 2] 5) [1; 3] 6 in
   Slice.Get 0 (fst (Slice.Delete t [1; 2])) [1; 3] = (6, true)) ∧
  let t := Str.StringTrie
             {[ "a" := Str.StringTrie {[ "b" := Str.StringTrie ∅ "/" 1 ]}
                                      "/" 0 ]} "/" 0 in
  ∃ t', Str.Delete 4 t "a/b" = Some t' ∧
        Str.Get 0 4 t "a" = Some (0, true) ∧
        Str.Get 0 4 t' "a" = Some (0, true).
Proof.
  destruct (Delete_frame (K:=nat) 0) as [Hslice Hstr]. split.
  - intros t. destruct (Hslice t [1; 2] [1; 3]) as (_ & Hfr & _).
    + discriminate.
    + rewrite Hfr; [reflexivity|]. intros [q Hq]. discriminate.
  - intros t.
    assert (Str.reachable 0 "/" t) as Hr.
    { apply (Str.reachable_Put 0 "/" 4 (Str.New 0 "/") "a/b" 1);
        [apply Str.reachable_New|reflexivity]. }
    destruct (Hstr "/" t "a/b" 4 Hr) as (t' & Hdel & Hfr & _).
    + discriminate.
    + simpl; lia.
    + exists t'. split; [exact Hdel|].
      destruct (Hfr "a" 4) as (r & Hget & Hget').
      * simpl; lia.
      * intros (wa & wb & Ha & Hb & Hpre). vm_compute in Ha, Hb.
        injection Ha as <-. injection Hb as <-.
        destruct Hpre as [q Hq]. discriminate.
      * assert (r = (0, true)) as -> by (vm_compute in Hget; congruence).
        split; [reflexivity|exact Hget'].
Defined.

(** * Further properties of the two tries *)

(** X1. The last [Put] of a key wins and the earlier one leaves no trace:
    two [Put]s of the same key give the state that the second alone
    gives. *)
Theorem Put_last_wins `{Countable K} {V : Type} (zero : V) :
  (∀ (t : Slice.sliceTrie) (k : list K) (v1 v2 : V),
     Slice.Put zero (Slice.Put zero t k v1) k v2 = Slice.Put zero t k v2) ∧
  (∀ (d : string) (t : Str.stringTrie) (k : string) (v1 v2 : V) (fuel : nat),
     Str.reachable zero d t → d ≠ "" ∨ k = "" → String.length k < fuel →
     ∃ t1 t2, Str.Put zero fuel t k v1 = Some t1 ∧
              Str.Put zero fuel t1 k v2 = Some t2 ∧
              Str.Put zero fuel t k v2 = Some t2).
Proof.
  split.
  - apply SliceFacts.Put_Put_same.
  - intros d t k v1 v2 fuel Hr. apply (StrFacts.Put_Put_overwrite zero d).
    by apply (StrFacts.reachable_wf zero).
Qed.

Lemma Put_last_wins_witness :
  ∃ t1 t2, Str.Put 0 8 (Str.New 0 "/") "foo/bar" 1 = Some t1 ∧
           Str.Put 0 8 t1 "foo/bar" 2 = Some t2 ∧
           Str.Put 0 8 (Str.New 0 "/") "foo/bar" 2 = Some t2.
Proof.
  apply (proj2 (Put_last_wins (K:=nat) 0) "/" (Str.New 0 "/") "foo/bar" 1 2 8).
  - apply Str.reachable_New.
  - left. discriminate.
  - simpl; lia.
Defined.

(** X2. The loop of [BenchmarkSlicePut] and [BenchmarkSlicePutLongKey]:
    [Put] of one key and value any number of times (at least once) leaves
    the trie in the state of a single [Put]. *)
Theorem Put_repeated `{Countable K} {V : Type} (zero : V)
    (tr : Slice.sliceTrie) (key : list K) (value : V) (n : nat) :
  Nat.iter (S n) (λ tr, Slice.Put zero tr key value) tr =
    Slice.Put zero tr key value.
Proof.
  induction n as [|n IH]; [done|].
  rewrite Nat.iter_succ, IH. apply SliceFacts.Put_Put_same.
Qed.

(** X3. [Put]s of different keys (for the string trie: of keys with
    different segments) can be swapped: both orders give the same state. *)
Theorem Put_commutes `{Countable K} {V : Type} (zero : V) :
  (∀ (t : Slice.sliceTrie) (k1 k2 : list K) (v1 v2 : V),
     k1 ≠ k2 →
     Slice.Put zero (Slice.Put zero t k1 v1) k2 v2 =
       Slice.Put zero (Slice.Put zero t k2 v2) k1 v1) ∧
  (∀ (d : string) (t : Str.stringTrie) (k1 k2 : string)
     (w1 w2 : list string) (v1 v2 : V) (fuel : nat),
     Str.reachable zero d t →
     Str.segments d k1 = Some w1 → Str.segments d k2 = Some w2 → w1 ≠ w2 →
     String.length k1 < fuel → String.length k2 < fuel →
     ∃ t1 t2 t12, Str.Put zero fuel t k1 v1 = Some t1 ∧
                  Str.Put zero fuel t k2 v2 = Some t2 ∧
                  Str.Put zero fuel t1 k2 v2 = Some t12 ∧
                  Str.Put zero fuel t2 k1 v1 = Some t12).
Proof.
  split.
  - apply SliceFacts.Put_Put_comm.
  - intros d t k1 k2 w1 w2 v1 v2 fuel Hr.
    apply (StrFacts.Put_Put_swap zero d). by apply (StrFacts.reachable_wf zero).
Qed.

Lemma Put_commutes_witness :
  (let t := Slice.NewSlice 0 in
   Slice.Put 0 (Slice.Put 0 t [1] 5) [1; 2] 6 =
     Slice.Put 0 (Slice.Put 0 t [1; 2] 6) [1] 5) ∧
  ∃ t1 t2 t12, Str.Put 0 4 (Str.New 0 "/") "a" 5 = Some t1 ∧
               Str.Put 0 4 (Str.New 0 "/") "a/b" 6 = Some t2 ∧
               Str.Put 0 4 t1 "a/b" 6 = Some t12 ∧
               Str.Put 0 4 t2 "a" 5 = Some t12.
Proof.
  destruct (Put_commutes (K:=nat) 0) as [Hslice Hstr]. split.
  - intros t. apply Hslice. discriminate.
  - apply (Hstr "/" (Str.New 0 "/") "a" "a/b" ["a"] ["a"; "b"] 5 6 4).
    + apply Str.reachable_New.
    + reflexivity.
    + reflexivity.
    + discriminate.
    + simpl; lia.
    + simpl; lia.
Defined.

(** X4. [Put(k, v)] keeps every node that exists, with its value, except
    for the value of the node of [k] itself: every key whose tokens (for
    the string trie: whose walked segments) differ from those of [k] and
    that was found before is found afterwards with the same value.  On the
    token-sequence trie the keys found after it are exactly those found
    before together with the prefixes of [k]. *)
Theorem Put_keeps_found `{Countable K} {V : Type} (zero : V) :
  (∀ (t : Slice.sliceTrie) (k k' : list K) (v : V),
     k' ≠ k → snd (Slice.Get zero t k') = true →
     Slice.Get zero (Slice.Put zero t k v) k' = Slice.Get zero t k') ∧
  (∀ (t : Slice.sliceTrie) (k k' : list K) (v : V),
     snd (Slice.Get zero (Slice.Put zero t k v) k') = true ↔
     snd (Slice.Get zero t k') = true ∨ k' `prefix_of` k) ∧
  (∀ (d : string) (t : Str.stringTrie) (k k' : string) (w w' : list string)
     (v x : V) (fuel fuel' : nat),
     Str.reachable zero d t →
     Str.segments d k = Some w → Str.segments d k' = Some w' → w' ≠ w →
     String.length k < fuel → String.length k' < fuel' →
     Str.Get zero fuel' t k' = Some (x, true) →
     ∃ t', Str.Put zero fuel t k v = Some t' ∧
           Str.Get zero fuel' t' k' = Some (x, true)).
Proof.
  split_and!.
  - apply SliceFacts.Get_Put_kept.
  - apply SliceFacts.Get_Put_found.
  - intros d t k k' w w' v x fuel fuel' Hr.
    apply (StrFacts.Get_Put_kept_segments zero d).
    by apply (StrFacts.reachable_wf zero).
Qed.

Lemma Put_keeps_found_witness :
  (let t := Slice.Put 0 (Slice.NewSlice 0) [1] 5 in
   Slice.Get 0 (Slice.Put 0 t [1; 2] 6) [1] = (5, true)) ∧
  let t := Str.StringTrie {[ "a" := Str.StringTrie ∅ "/" 5 ]} "/" 0 in
  ∃ t', Str.Put 0 4 t "a/b" 6 = Some t' ∧ Str.Get 0 4 t' "a" = Some (5, true).
Proof.
  destruct (Put_keeps_found (K:=nat) 0) as (Hslice & _ & Hstr). split.
  - intros t. rewrite Hslice; [reflexivity|discriminate|reflexivity].
  - intros t.
    assert (Str.reachable 0 "/" t) as Hr.
    { apply (Str.reachable_Put 0 "/" 2 (Str.New 0 "/") "a" 5);
        [apply Str.reachable_New|reflexivity]. }
    apply (Hstr "/" t "a/b" "a" ["a"; "b"] ["a"] 6 5 4 4 Hr).
    + reflexivity.
    + reflexivity.
    + discriminate.
    + simpl; lia.
    + simpl; lia.
    + reflexivity.
Defined.

(** X5. The keys that are found are closed under prefixes: when [Get]
    finds a key it finds every key whose tokens (segments) are an initial
    part of it. *)
Theorem Get_prefix_closed `{Countable K} {V : Type} (zero : V) :
  (∀ (t : Slice.sliceTrie) (p q : list K),
     snd (Slice.Get zero t (p ++ q)) = true → snd (Slice.Get zero t p) = true) ∧
  (∀ (d : string) (t : Str.stringTrie) (k k' : string) (p q : list string)
     (x : V) (fuel fuel' : nat),
     Str.reachable zero d t →
     Str.segments d k = Some p → Str.segments d k' = Some (p ++ q) →
     String.length k < fuel → String.length k' < fuel' →
     Str.Get zero fuel' t k' = Some (x, true) →
     ∃ y, Str.Get zero fuel t k = Some (y, true)).
Proof.
  split.
  - apply SliceFacts.Get_found_prefix.
  - intros d t k k' p q x fuel fuel' Hr.
    apply (StrFacts.Get_found_prefix_segments zero d).
    by apply (StrFacts.reachable_wf zero).
Qed.

Lemma Get_prefix_closed_witness :
  (let t := Slice.Put 0 (Slice.NewSlice 0) [1; 2; 3] 5 in
   snd (Slice.Get 0 t [1; 2]) = true) ∧
  let t := Str.StringTrie
             {[ "a" := Str.StringTrie {[ "b" := Str.StringTrie ∅ "/" 1 ]}
                                      "/" 0 ]} "/" 0 in
  ∃ y, Str.Get 0 4 t "a" = Some (y, true).
Proof.
  destruct (Get_prefix_closed (K:=nat) 0) as [Hslice Hstr]. split.
  - intros t. apply (Hslice t [1; 2] [3]). reflexivity.
  - intros t.
    assert (Str.reachable 0 "/" t) as Hr.
    { apply (Str.reachable_Put 0 "/" 4 (Str.New 0 "/") "a/b" 1);
        [apply Str.reachable_New|reflexivity]. }
    apply (Hstr "/" t "a" "a/b" ["a"] ["b"] 1 4 4 Hr).
    + reflexivity.
    + reflexivity.
    + simpl; lia.
    + simpl; lia.
    + reflexivity.
Defined.

(** X6. [Delete] undoes a [Put] exactly when the [Put] created only the
    last node of its key: if the node of the key without its last token
    (segment) exists and the node of the key does not, [Put] followed by
    [Delete] of the key gives back the state before. *)
Theorem Delete_undoes_Put `{Countable K} {V : Type} (zero : V) :
  (∀ (t : Slice.sliceTrie) (p : list K) (a : K) (v : V),
     snd (Slice.Get zero t p) = true →
     snd (Slice.Get zero t (p ++ [a])) = false →
     Slice.Delete (Slice.Put zero t (p ++ [a]) v) (p ++ [a]) = (t, Returned)) ∧
  (∀ (d : string) (t : Str.stringTrie) (kp k : string) (p : list string)
     (a : string) (v x y : V) (fuel : nat),
     Str.reachable zero d t →
     Str.segments d kp = Some p → Str.segments d k = Some (p ++ [a]) →
     String.length kp < fuel → String.length k < fuel →
     Str.Get zero fuel t kp = Some (x, true) →
     Str.Get zero fuel t k = Some (y, false) →
     ∃ t', Str.Put zero fuel t k v = Some t' ∧ Str.Delete fuel t' k = Some t).
Proof.
  split.
  - apply SliceFacts.Delete_Put_undo.
  - intros d t kp k p a v x y fuel Hr.
    apply (StrFacts.Delete_Put_undo_segments zero d).
    by apply (StrFacts.reachable_wf zero).
Qed.

Lemma Delete_undoes_Put_witness :
  (let t := Slice.Put 0 (Slice.NewSlice 0) [1] 5 in
   Slice.Delete (Slice.Put 0 t [1; 2] 6) [1; 2] = (t, Returned)) ∧
  let t := Str.StringTrie {[ "a" := Str.StringTrie ∅ "/" 5 ]} "/" 0 in
  ∃ t', Str.Put 0 4 t "a/b" 6 = Some t' ∧ Str.Delete 4 t' "a/b" = Some t.
Proof.
  destruct (Delete_undoes_Put (K:=nat) 0) as [Hslice Hstr]. split.
  - intros t. apply (Hslice t [1] 2 6); reflexivity.
  - intros t.
    assert (Str.reachable 0 "/" t) as Hr.
    { apply (Str.reachable_Put 0 "/" 2 (Str.New 0 "/") "a" 5);
        [apply Str.reachable_New|reflexivity]. }
    apply (Hstr "/" t "a" "a/b" ["a"] "b" 6 5 0 4 Hr).
    + reflexivity.
    + reflexivity.
    + simpl; lia.
    + simpl; lia.
    + reflexivity.
    + reflexivity.
Defined.

(** X7. [Delete]s of non-empty keys can be swapped: both orders return and
    give the same state. *)
Theorem Delete_commutes `{Countable K} {V : Type} (zero : V) :
  (∀ (t : Slice.sliceTrie (V:=V)) (k1 k2 : list K),
     k1 ≠ [] → k2 ≠ [] →
     fst (Slice.Delete (fst (Slice.Delete t k1)) k2) =
       fst (Slice.Delete (fst (Slice.Delete t k2)) k1)) ∧
  (∀ (d : string) (t : Str.stringTrie) (k1 k2 : string) (fuel : nat),
     Str.reachable zero d t → k1 ≠ "" → k2 ≠ "" →
     String.length k1 < fuel → String.length k2 < fuel →
     ∃ t1 t2 t12, Str.Delete fuel t k1 = Some t1 ∧
                  Str.Delete fuel t k2 = Some t2 ∧
                  Str.Delete fuel t1 k2 = Some t12 ∧
                  Str.Delete fuel t2 k1 = Some t12).
Proof.
  split.
  - apply SliceFacts.Delete_Delete_comm.
  - intros d t k1 k2 fuel. apply StrFacts.Delete_Delete_swap.
Qed.

Lemma Delete_commutes_witness :
  (let t := Slice.Put 0 (Slice.Put 0 (Slice.NewSlice 0) [1; 2] 5) [3] 6 in
   fst (Slice.Delete (fst (Slice.Delete t [1])) [1; 2]) =
     fst (Slice.Delete (fst (Slice.Delete t [1; 2])) [1])) ∧
  let t := Str.StringTrie
             {[ "a" := Str.StringTrie {[ "b" := Str.StringTrie ∅ "/" 1 ]}
                                      "/" 0 ]} "/" 0 in
  ∃ t1 t2 t12, Str.Delete 4 t "a" = Some t1 ∧ Str.Delete 4 t "a/b" = Some t2 ∧
               Str.Delete 4 t1 "a/b" = Some t12 ∧ Str.Delete 4 t2 "a" = Some t12.
Proof.
  destruct (Delete_commutes (K:=nat) 0) as [Hslice Hstr]. split.
  - intros t. apply Hslice; discriminate.
  - intros t.
    assert (Str.reachable 0 "/" t) as Hr.
    { apply (Str.reachable_Put 0 "/" 4 (Str.New 0 "/") "a/b" 1);
        [apply Str.reachable_New|reflexivity]. }
    apply (Hstr "/" t "a" "a/b" 4 Hr).
    + discriminate.
    + discriminate.
    + simpl; lia.
    + simpl; lia.
Defined.

(** X8. Deleting a key and putting it again gives a node without
    children: the key is found with the new value and nothing below it is
    found. *)
Theorem Put_after_Delete_is_fresh `{Countable K} {V : Type} (zero : V) :
  (∀ (t : Slice.sliceTrie) (k q : list K) (v : V),
     k ≠ [] → q ≠ [] →
     let t' := Slice.Put zero (fst (Slice.Delete t k)) k v in
     Slice.Get zero t' k = (v, true) ∧
     Slice.Get zero t' (k ++ q) = (zero, false)) ∧
  (∀ (d : string) (t : Str.stringTrie) (k k' : string) (w q : list string)
     (v : V) (fuel fuel' : nat),
     Str.reachable zero d t → k ≠ "" →
     Str.segments d k = Some w → Str.segments d k' = Some (w ++ q) → q ≠ [] →
     String.length k < fuel → String.length k' < fuel' →
     ∃ t1 t2, Str.Delete fuel t k = Some t1 ∧
              Str.Put zero fuel t1 k v = Some t2 ∧
              Str.Get zero fuel t2 k = Some (v, true) ∧
              Str.Get zero fuel' t2 k' = Some (zero, false)).
Proof.
  split.
  - intros t k q v Hk Hq t'. split.
    + apply SliceFacts.Get_Put_same.
    + by apply SliceFacts.Get_Put_Delete_below.
  - intros d t k k' w q v fuel fuel' Hr.
    apply (StrFacts.Get_Put_Delete_fresh zero d).
    by apply (StrFacts.reachable_wf zero).
Qed.

Lemma Put_after_Delete_is_fresh_witness :
  (let t := Slice.Put 0 (Slice.NewSlice 0) [1; 2] 5 in
   let t' := Slice.Put 0 (fst (Slice.Delete t [1])) [1] 7 in
   Slice.Get 0 t' [1] = (7, true) ∧ Slice.Get 0 t' [1; 2] = (0, false)) ∧
  let t := Str.StringTrie
             {[ "a" := Str.StringTrie {[ "b" := Str.StringTrie ∅ "/" 1 ]}
                                      "/" 0 ]} "/" 0 in
  ∃ t1 t2, Str.Delete 4 t "a" = Some t1 ∧ Str.Put 0 4 t1 "a" 7 = Some t2 ∧
           Str.Get 0 4 t2 "a" = Some (7, true) ∧
           Str.Get 0 4 t2 "a/b" = Some (0, false).
Proof.
  destruct (Put_after_Delete_is_fresh (K:=nat) 0) as [Hslice Hstr]. split.
  - intros t. apply (Hslice t [1] [2] 7); discriminate.
  - intros t.
    assert (Str.reachable 0 "/" t) as Hr.
    { apply (Str.reachable_Put 0 "/" 4 (Str.New 0 "/") "a/b" 1);
        [apply Str.reachable_New|reflexivity]. }
    apply (Hstr "/" t "a" "a/b" ["a"] ["b"] 7 4 4 Hr).
    + discriminate.
    + reflexivity.
    + reflexivity.
    + discriminate.
    + simpl; lia.
    + simpl; lia.
Defined.

(** X9. The delimiter of a trie never changes: in every state reachable
    from [New(d)], [Delimiter()] returns [d], and every node of the trie
    carries [d]. *)
Theorem Delimiter_is_constant {V : Type} (zero : V) (d : string)
    (t : Str.stringTrie) :
  Str.reachable zero d t → Str.Delimiter t = d ∧ Str.wf d t.
Proof.
  intros Hr. pose proof (StrFacts.reachable_wf zero d t Hr) as Ht.
  split; [|done]. by apply StrFacts.wf_delimiter.
Qed.

Lemma Delimiter_is_constant_witness :
  ∃ t, Str.Put 0 8 (Str.New 0 "::") "a::b" 1 = Some t ∧
       Str.Delimiter t = "::" ∧ Str.wf "::" t.
Proof.
  destruct (Str.Put 0 8 (Str.New 0 "::") "a::b" 1) as [t|] eqn:Hput;
    [|vm_compute in Hput; discriminate].
  exists t. split; [reflexivity|].
  apply (Delimiter_is_constant 0 "::" t).
  eapply Str.reachable_Put; [apply Str.reachable_New|exact Hput].
Defined.

(** X10. Which calls return.  In a reachable state of the string trie
    [Put(k, v)] returns if and only if the delimiter is not empty or [k] is
    empty, and then within a recursion depth of the length of [k] plus
    one; [Get] and [Delete] return for every key within that depth. *)
Theorem calls_return {V : Type} (zero : V) (d : string) (t : Str.stringTrie)
    (k : string) (v : V) :
  Str.reachable zero d t →
  ((∃ fuel t', Str.Put zero fuel t k v = Some t') ↔ d ≠ "" ∨ k = "") ∧
  (d ≠ "" ∨ k = "" →
   ∀ fuel, String.length k < fuel → is_Some (Str.Put zero fuel t k v)) ∧
  (∀ fuel, String.length k < fuel →
     is_Some (Str.Get zero fuel t k) ∧ is_Some (Str.Delete fuel t k)).
Proof.
  intros Hr. pose proof (StrFacts.reachable_wf zero d t Hr) as Ht.
  split_and!.
  - split.
    + intros (fuel & t' & Hput). by eapply StrFacts.Put_returned.
    + intros Hd. exists (S (String.length k)).
      destruct (StrFacts.Put_returns zero d (S (String.length k)) t k v)
        as [t' Hput]; [done..|lia|]. by exists t'.
  - intros Hd fuel Hf. by apply (StrFacts.Put_returns zero d).
  - intros fuel Hf. split.
    + by apply (StrFacts.Get_reachable zero d).
    + by apply (StrFacts.Delete_reachable_returns zero d).
Qed.

Lemma calls_return_witness :
  is_Some (Str.Put 0 4 (Str.New 0 "/") "a/b" 1) ∧
  is_Some (Str.Get 0 4 (Str.New 0 "") "a/b") ∧
  is_Some (Str.Delete 4 (Str.New 0 "") "a/b").
Proof.
  split.
  - apply (calls_return 0 "/" (Str.New 0 "/") "a/b" 1).
    + apply Str.reachable_New.
    + left. discriminate.
    + simpl; lia.
  - apply (calls_return 0 "" (Str.New 0 "") "a/b" 1).
    + apply Str.reachable_New.
    + simpl; lia.
Defined.

(** X11. A trie created with the empty delimiter stays empty: in every
    reachable state it has no children, [Put] of a non-empty key returns
    at no recursion depth, [Get] of a non-empty key finds nothing and
    [Delete] changes nothing. *)
Theorem empty_delimiter_trie {V : Type} (zero : V) (t : Str.stringTrie) :
  Str.reachable zero "" t →
  Str.children t = ∅ ∧
  (∀ (k : string) (v : V) (fuel : nat),
     k ≠ "" → Str.Put zero fuel t k v = None) ∧
  (∀ (k : string) (fuel : nat),
     k ≠ "" → Str.Get zero (S fuel) t k = Some (zero, false)) ∧
  (∀ (k : string) (fuel : nat), Str.Delete (S fuel) t k = Some t).
Proof.
  intros Hr. pose proof (StrFacts.reachable_wf zero "" t Hr) as Ht.
  pose proof (StrFacts.reachable_empty_delimiter zero t Hr) as Hch.
  split_and!; [done| | |].
  - intros k v fuel Hk. by apply StrFacts.Put_empty_delimiter.
  - intros k fuel Hk. by apply StrFacts.Get_no_children.
  - intros k fuel. by apply StrFacts.Delete_no_children.
Qed.

Lemma empty_delimiter_trie_witness :
  ∃ t, Str.Put 0 1 (Str.New 0 "") "" 7 = Some t ∧
       Str.Get 0 1 t "" = Some (7, true) ∧
       Str.Put 0 9 t "ab" 1 = None ∧
       Str.Get 0 9 t "ab" = Some (0, false) ∧
       Str.Delete 9 t "ab" = Some t.
Proof.
  destruct (Str.Put 0 1 (Str.New 0 "") "" 7) as [t|] eqn:Hput;
    [|vm_compute in Hput; discriminate].
  assert (Str.reachable 0 "" t) as Hr.
  { eapply Str.reachable_Put; [apply Str.reachable_New|exact Hput]. }
  destruct (empty_delimiter_trie 0 t Hr) as (_ & HPut & HGet & HDel).
  exists t. split_and!.
  - reflexivity.
  - vm_compute in Hput. injection Hput as <-. reflexivity.
  - apply HPut. discriminate.
  - apply HGet. discriminate.
  - apply HDel.
Defined.

(** X12. The string trie is a token-sequence trie over the segments of its
    keys: forgetting the per-node delimiter, [Get], [Put] and (for a
    non-empty key) [Delete] of key [k] are [Get], [Put] and [Delete] of the
    token-sequence trie at the segments of [k], and [Delete] never
    panics. *)
Theorem string_trie_refines_slice_trie {V : Type} (zero : V) (d : string)
    (t : Str.stringTrie) (k : string) (ws : list string) (v : V)
    (fuel : nat) :
  Str.reachable zero d t → Str.segments d k = Some ws →
  String.length k < fuel →
  Str.Get zero fuel t k = Some (Slice.Get zero (Str.erase t) ws) ∧
  (∃ t', Str.Put zero fuel t k v = Some t' ∧
         Str.erase t' = Slice.Put zero (Str.erase t) ws v) ∧
  (k ≠ "" →
   ∃ t', Str.Delete fuel t k = Some t' ∧
         Slice.Delete (Str.erase t) ws = (Str.erase t', Returned)).
Proof.
  intros Hr Hws Hf. pose proof (StrFacts.reachable_wf zero d t Hr) as Ht.
  split_and!.
  - by apply (StrFacts.Get_segments zero d).
  - destruct (StrFacts.Put_segments zero d fuel t k v ws)
      as (t' & Hput & _ & He); [done..|]. by exists t'.
  - intros Hk.
    destruct (StrFacts.Delete_segments d fuel t k ws)
      as (Hne & t' & Hdel & _ & He); [done..|].
    exists t'. split; [done|].
    pose proof (SliceFacts.Delete_returns (Str.erase t) ws Hne) as Hret.
    destruct (Slice.Delete (Str.erase t) ws) as [u c]. simpl in *. congruence.
Qed.

Lemma string_trie_refines_slice_trie_witness :
  let t := Str.StringTrie
             {[ "a" := Str.StringTrie {[ "b" := Str.StringTrie ∅ "/" 1 ]}
                                      "/" 0 ]} "/" 0 in
  Str.Get 0 4 t "a/b" = Some (Slice.Get 0 (Str.erase t) ["a"; "b"]) ∧
  ∃ t', Str.Delete 4 t "a/b" = Some t' ∧
        Slice.Delete (Str.erase t) ["a"; "b"] = (Str.erase t', Returned).
Proof.
  intros t.
  assert (Str.reachable 0 "/" t) as Hr.
  { apply (Str.reachable_Put 0 "/" 4 (Str.New 0 "/") "a/b" 1);
      [apply Str.reachable_New|reflexivity]. }
  destruct (string_trie_refines_slice_trie 0 "/" t "a/b" ["a"; "b"] 0 4 Hr)
    as (Hget & _ & Hdel).
  - reflexivity.
  - simpl; lia.
  - split; [exact Hget|]. apply Hdel. discriminate.
Defined.

(** X13. The segments of a key: when the descent for [k] ends with the
    segments [ws], no segment contains the (non-empty) delimiter, and [k]
    is the segments joined by the delimiter, possibly followed by one more
    delimiter. *)
Theorem segments_of_key (d k : string) (ws : list string) :
  Str.segments d k = Some ws →
  (d ≠ "" → Forall (λ w, Str.Index w d = None) ws) ∧
  (k = Str.Join ws d ∨ (ws ≠ [] ∧ k = Str.Join ws d +:+ d)).
Proof.
  unfold Str.segments. intros Hws. split.
  - intros Hd. by eapply StrFacts.segments_fuel_no_delimiter.
  - by eapply StrFacts.segments_fuel_Join.
Qed.

Lemma segments_of_key_witness :
  Forall (λ w, Str.Index w "::" = None) ["a"; ""; "b:c"] ∧
  ("a::::b:c::" = Str.Join ["a"; ""; "b:c"] "::" ∨
   "a::::b:c::" = Str.Join ["a"; ""; "b:c"] "::" +:+ "::").
Proof.
  destruct (segments_of_key "::" "a::::b:c::" ["a"; ""; "b:c"]) as [Hno Hjoin].
  - reflexivity.
  - split; [apply Hno; discriminate|].
    destruct Hjoin as [Hj|[_ Hj]]; [by left|by right].
Defined.

(** X14. Keys with the same segments are interchangeable: [Get] returns
    the same for both, and [Put] and (for non-empty keys) [Delete] lead to
    the same state. *)
Theorem same_segments_same_node {V : Type} (zero : V) (d : string)
    (t : Str.stringTrie) (k1 k2 : string) (w : list string) (v : V)
    (fuel : nat) :
  Str.reachable zero d t →
  Str.segments d k1 = Some w → Str.segments d k2 = Some w →
  String.length k1 < fuel → String.length k2 < fuel →
  Str.Get zero fuel t k1 = Str.Get zero fuel t k2 ∧
  Str.Put zero fuel t k1 v = Str.Put zero fuel t k2 v ∧
  (k1 ≠ "" → k2 ≠ "" → Str.Delete fuel t k1 = Str.Delete fuel t k2).
Proof.
  intros Hr. apply (StrFacts.same_segments zero d).
  by apply (StrFacts.reachable_wf zero).
Qed.

Lemma same_segments_same_node_witness :
  let t := Str.StringTrie
             {[ "a" := Str.StringTrie {[ "b" := Str.StringTrie ∅ "/" 1 ]}
                                      "/" 0 ]} "/" 0 in
  Str.Get 0 6 t "a/b/" = Str.Get 0 6 t "a/b" ∧
  Str.Put 0 6 t "a/b/" 9 = Str.Put 0 6 t "a/b" 9 ∧
  Str.Delete 6 t "a/b/" = Str.Delete 6 t "a/b".
Proof.
  intros t.
  assert (Str.reachable 0 "/" t) as Hr.
  { apply (Str.reachable_Put 0 "/" 4 (Str.New 0 "/") "a/b" 1);
      [apply Str.reachable_New|reflexivity]. }
  destruct (same_segments_same_node 0 "/" t "a/b/" "a/b" ["a"; "b"] 9 6 Hr)
    as (Hget & Hput & Hdel).
  - reflexivity.
  - reflexivity.
  - simpl; lia.
  - simpl; lia.
  - split_and!; [exact Hget|exact Hput|]. apply Hdel; discriminate.
Defined.

(** X15. [Delete("")] is [Delete] of the key that consists of the
    delimiter alone: both remove the child under the empty segment. *)
Theorem Delete_empty_key_is_delimiter_key {V : Type} (t : Str.stringTrie (V:=V))
    (fuel : nat) :
  Str.Delete (S fuel) t "" = Str.Delete (S fuel) t (Str.Delimiter t) ∧
  Str.Delete (S fuel) t (Str.Delimiter t) =
    Some (Str.StringTrie (delete "" (Str.children t))
                         (Str.delimiter t) (Str.value t)).
Proof.
  split; [apply StrFacts.Delete_empty_delimiter_key|].
  unfold Str.Delimiter. simpl.
  pose proof (StrFacts.Cut_self (Str.delimiter t)) as Hcut.
  destruct (Str.Cut (Str.delimiter t) (Str.delimiter t)) as [[key rest] found].
  simpl in Hcut. simplify_eq. by case_decide.
Qed.

(** X16. A fresh trie is empty: [Get] finds the empty key only, with the
    zero value, and [Delete] of a non-empty key changes nothing. *)
Theorem fresh_trie_is_empty `{Countable K} {V : Type} (zero : V) :
  (∀ k : list K,
     Slice.Get zero (Slice.NewSlice zero) k = (zero, bool_decide (k = []))) ∧
  (∀ k : list K,
     k ≠ [] →
     Slice.Delete (Slice.NewSlice zero) k = (Slice.NewSlice zero, Returned)) ∧
  (∀ (d k : string) (fuel : nat),
     Str.Get zero (S fuel) (Str.New zero d) k =
       Some (zero, bool_decide (k = "")) ∧
     Str.Delete (S fuel) (Str.New zero d) k = Some (Str.New zero d)).
Proof.
  split_and!.
  - by intros [|a k].
  - intros k Hk. apply (SliceFacts.Delete_absent zero _ k k); [done..|].
    by destruct k.
  - intros d k fuel. split.
    + destruct (decide (k = "")) as [->|Hk]; [done|].
      rewrite bool_decide_eq_false_2 by done.
      by apply StrFacts.Get_no_children.
    + by apply StrFacts.Delete_no_children.
Qed.

Lemma fresh_trie_is_empty_witness :
  Slice.Delete (Slice.NewSlice 0) [1; 2] = (Slice.NewSlice 0, Returned).
Proof.
  apply (proj1 (proj2 (fresh_trie_is_empty (K:=nat) 0)) [1; 2]). discriminate.
Defined.

(** X17. Round trip where [Put] returns: on the token-sequence trie, and on
    the delimited-string trie whose delimiter is not empty (or for the empty
    key), [Put(k, v)] returns and a following [Get(k)] returns [(v, true)],
    in every reachable state. *)
Theorem Put_then_Get `{Countable K} {V : Type} (zero : V) :
  (∀ (t : Slice.sliceTrie) (k : list K) (v : V),
     Slice.Get zero (Slice.Put zero t k v) k = (v, true)) ∧
  (∀ (d : string) (t : Str.stringTrie) (k : string) (v : V) (fuel : nat),
     Str.reachable zero d t → d ≠ "" ∨ k = "" → String.length k < fuel →
     ∃ t', Str.Put zero fuel t k v = Some t' ∧
           Str.Get zero fuel t' k = Some (v, true)).
Proof.
  split.
  - apply SliceFacts.Get_Put_same.
  - intros d t k v fuel Hr Hd Hf.
    apply (StrFacts.Put_Get_same zero d); [|done..].
    by apply (StrFacts.reachable_wf zero).
Qed.

Lemma Put_then_Get_witness :
  ∃ t', Str.Put 0 8 (Str.New 0 "/") "foo/bar" 7 = Some t' ∧
        Str.Get 0 8 t' "foo/bar" = Some (7, true).
Proof.
  apply (proj2 (Put_then_Get (K:=nat) 0) "/" (Str.New 0 "/") "foo/bar" 7 8).
  - apply Str.reachable_New.
  - left. discriminate.
  - simpl. lia.
Defined.
